(** * ws-relay: the token/session relay engine of [relay.go]

    A shallow embedding of [WSRelay] and its methods ([RegisterToken],
    [RegisterSession], [SendData], [DisposeToken]) and of the expiration
    callback installed by [NewWSRelay], followed by the properties of the
    relay that the specification states.  The HTTP handlers and the
    websocket callbacks of [main.go] are embedded as well, with properties
    of the relay as they drive it.

    Modelling conventions.
    - A Go [error] is an [option error]; [None] is [nil].
    - A [*melody.Session] is an address ([Session]); a possibly nil pointer is
      an [option Session].  What a session does on [Write] and [IsClosed]
      belongs to the transport, which is an interface here ([Transport]).
    - The [io.Reader] handed to [SendData] is an interface ([Reader]): a state
      with a [Read] step.  The loop of [SendData] runs as long as the reader
      keeps it running, so the embedding takes fuel, one unit per iteration.
    - Wall-clock time is an explicit argument [now] (nanoseconds, [Z]).
    - Prometheus counters hold float64 values that are sums of small
      integers; they are modelled by [nat], which is exact below 2^53.
    - Calls to the loggers are not modelled; the locals [totalBytes] and
      [count] of [SendData] are written and never read, and are left out.
    - Locks are not modelled: every operation is one atomic step. *)

From Stdlib Require Import ZArith Strings.String Init.Byte.
From stdpp Require Import base gmap strings list fin_maps.

Open Scope Z_scope.
Open Scope nat_scope.

(** ** Errors and external interfaces *)

(** The error values that travel through the relay.  The first three are the
    relay's own [errors.New] values, [EOF] is [io.EOF], and [ErrExternal] is
    any other error value produced by a reader or by the transport. *)
Inductive error : Type :=
| ErrTokenNotFound
| ErrConversion
| ErrNoSession
| EOF
| ErrExternal (msg : string).

(** The text of the relay's own errors, as passed to [errors.New]. *)
Definition error_text (e : error) : string :=
  match e with
  | ErrTokenNotFound => "token not found"
  | ErrConversion => "failed to convert cached value to connection"
  | ErrNoSession => "no session associated with this token"
  | EOF => "EOF"
  | ErrExternal msg => msg
  end.

(** Address of a [melody.Session]. *)
Definition Session : Type := positive.

(** [io.Reader]: [Read st len] is one call [Read(p)] with [len(p) = len]; it
    yields the bytes stored at the front of [p] (their number is the [n] of
    the Go result), the error, and the reader's next state. *)
Class Reader (R : Type) : Type :=
  Read : R → nat → list byte * option error * R.

(** The part of the transport the relay uses: [session.IsClosed()] and
    [session.Write(msg)].  [Write] is handed the bytes that the slice [msg]
    holds when the call is made, and answers with its error; what a
    transport does with the slice after the call returns is not part of this
    interface. *)
Class Transport (T : Type) : Type := {
  IsClosed : T → Session → bool;
  Write : T → Session → list byte → option error * T
}.

(** ** The binding record and the values held by the cache *)

(** [wsRelayConn]: the session pointer, nil until a consumer connects. *)
Record wsRelayConn : Type := { session : option Session }.

(** [newWSRelayConn] *)
Definition newWSRelayConn (s : option Session) : wsRelayConn :=
  {| session := s |}.

(** The assignment [conn.session = s]. *)
Definition set_session (s : option Session) (conn : wsRelayConn) : wsRelayConn :=
  {| session := s |}.

(** The cache stores [interface{}] values.  [Conn c] is a [*wsRelayConn];
    [Foreign] stands for a value of any other dynamic type.  The pointer made
    by [newWSRelayConn] is stored in one cache entry and nowhere else, so the
    record is kept by value inside its entry. *)
Inductive value : Type :=
| Conn (conn : wsRelayConn)
| Foreign.

(** The type assertion of a cached value to a connection record pointer,
    [conn, ok := value.(T)] with [T] the pointer type: [Some conn] when [ok]
    is true. *)
Definition type_assert (v : value) : option wsRelayConn :=
  match v with
  | Conn conn => Some conn
  | Foreign => None
  end.

(** ** The expiring table (ttlcache) *)

Record item : Type := { data : value; expireAt : Z }.

Record Cache : Type := { items : gmap string item; ttl : Z }.

(** Modelled from the spec: the ttlcache library is not part of the sources;
    these operations follow section 4.1 (put, get, remove, eviction sweep). *)
Definition NewCache : Cache := {| items := ∅; ttl := 0%Z |}.

(** Modelled from the spec: [SetTTL] fixes the uniform time to live. *)
Definition SetTTL (d : Z) (c : Cache) : Cache :=
  {| items := items c; ttl := d |}.

(** Modelled from the spec: put inserts or replaces and resets the deadline. *)
Definition cache_Set (now : Z) (key : string) (v : value) (c : Cache) : Cache :=
  {| items := <[key := {| data := v; expireAt := (now + ttl c)%Z |}]> (items c);
     ttl := ttl c |}.

(** Modelled from the spec: get is a lookup; [None] is "not found". *)
Definition cache_Get (key : string) (c : Cache) : option value :=
  data <$> items c !! key.

(** Modelled from the spec: remove deletes unconditionally, no-op if absent. *)
Definition cache_Remove (key : string) (c : Cache) : Cache :=
  {| items := delete key (items c); ttl := ttl c |}.

(** A store through the record pointer held by entry [key]: the pointee
    changes, the entry and its deadline stay. *)
Definition conn_store (key : string) (conn : wsRelayConn) (c : Cache) : Cache :=
  {| items := alter (λ it, {| data := Conn conn; expireAt := expireAt it |}) key (items c);
     ttl := ttl c |}.

(** Modelled from the spec: an entry is a candidate of the sweep once its
    deadline is past. *)
Definition expired (now : Z) (it : item) : bool := (expireAt it <? now)%Z.

(** ** The relay *)

Record WSRelay : Type := {
  cache : Cache;
  tokenCounter : nat;
  tokenRemovedCounter : nat;
  messageSizeHistogram : list nat;
  tokenBytesCounter : gmap string nat;
  tokenMessagesCounter : gmap string nat
}.

(** The instrumentation alone, for statements about "no metrics change". *)
Definition metrics (r : WSRelay)
  : nat * nat * list nat * gmap string nat * gmap string nat :=
  (tokenCounter r, tokenRemovedCounter r, messageSizeHistogram r,
   tokenBytesCounter r, tokenMessagesCounter r).

(** Value of the child of a [CounterVec] for one label; a child that was
    never touched reads 0. *)
Definition counter_value (label : string) (v : gmap string nat) : nat :=
  default 0 (v !! label).

(** [vec.WithLabelValues(label).Add(n)] *)
Definition counter_Add (label : string) (n : nat) (v : gmap string nat)
  : gmap string nat :=
  <[label := counter_value label v + n]> v.

(** 15 minutes, in nanoseconds. *)
Definition fifteen_minutes : Z := (15 * 60 * 1000000000)%Z.

(** [NewWSRelay]: an empty cache with a TTL of 15 minutes and zeroed metrics.
    The expiration callback it installs is [checkExpiration] below. *)
Definition NewWSRelay : WSRelay :=
  {| cache := SetTTL fifteen_minutes NewCache;
     tokenCounter := 0;
     tokenRemovedCounter := 0;
     messageSizeHistogram := [];
     tokenBytesCounter := ∅;
     tokenMessagesCounter := ∅ |}.

Definition with_cache (c : Cache) (r : WSRelay) : WSRelay :=
  {| cache := c;
     tokenCounter := tokenCounter r;
     tokenRemovedCounter := tokenRemovedCounter r;
     messageSizeHistogram := messageSizeHistogram r;
     tokenBytesCounter := tokenBytesCounter r;
     tokenMessagesCounter := tokenMessagesCounter r |}.

(** [tokenRemovedCounter.Inc()] *)
Definition inc_removed (r : WSRelay) : WSRelay :=
  {| cache := cache r;
     tokenCounter := tokenCounter r;
     tokenRemovedCounter := S (tokenRemovedCounter r);
     messageSizeHistogram := messageSizeHistogram r;
     tokenBytesCounter := tokenBytesCounter r;
     tokenMessagesCounter := tokenMessagesCounter r |}.

(** [tokenCounter.Inc()] *)
Definition inc_issued (r : WSRelay) : WSRelay :=
  {| cache := cache r;
     tokenCounter := S (tokenCounter r);
     tokenRemovedCounter := tokenRemovedCounter r;
     messageSizeHistogram := messageSizeHistogram r;
     tokenBytesCounter := tokenBytesCounter r;
     tokenMessagesCounter := tokenMessagesCounter r |}.

(** The three metric updates of [SendData] after a chunk of [n] bytes was
    written: [messageSizeHistogram.Observe(n)],
    [tokenBytesCounter.WithLabelValues(token).Add(n)],
    [tokenMessagesCounter.WithLabelValues(token).Inc()]. *)
Definition record_chunk (token : string) (n : nat) (r : WSRelay) : WSRelay :=
  {| cache := cache r;
     tokenCounter := tokenCounter r;
     tokenRemovedCounter := tokenRemovedCounter r;
     messageSizeHistogram := messageSizeHistogram r ++ [n];
     tokenBytesCounter := counter_Add token n (tokenBytesCounter r);
     tokenMessagesCounter := counter_Add token 1 (tokenMessagesCounter r) |}.

(** [RegisterToken] *)
Definition RegisterToken (now : Z) (token : string) (r : WSRelay) : WSRelay :=
  inc_issued (with_cache (cache_Set now token (Conn (newWSRelayConn None)) (cache r)) r).

(** [RegisterSession]: the error returned and the relay afterwards. *)
Definition RegisterSession (token : string) (s : option Session) (r : WSRelay)
  : option error * WSRelay :=
  match cache_Get token (cache r) with
  | None => (Some ErrTokenNotFound, r)
  | Some v =>
      match type_assert v with
      | None => (Some ErrConversion, r)
      | Some conn =>
          (None, with_cache (conn_store token (set_session s conn) (cache r)) r)
      end
  end.

(** [DisposeToken] *)
Definition DisposeToken (token : string) (r : WSRelay) : WSRelay :=
  inc_removed (with_cache (cache_Remove token (cache r)) r).

(** The expiration callback that [NewWSRelay] installs with
    [SetCheckExpirationCallback]: [true] keeps the entry, [false] lets it
    expire.  The closure shares [tokenRemovedCounter] with the relay. *)
Definition checkExpiration `{Transport T} (tr : T) (key : string) (v : value)
    (r : WSRelay) : bool * WSRelay :=
  match type_assert v with
  | None => (false, inc_removed r)
  | Some conn =>
      match session conn with
      | None => (false, inc_removed r)
      | Some s =>
          if IsClosed tr s then (false, inc_removed r) else (true, r)
      end
  end.

(** Modelled from the spec: what the sweep does with one entry of its
    snapshot (section 4.1): an entry past its deadline is put to the liveness
    predicate; on a veto it is skipped, otherwise it is removed. *)
Definition sweep_entry (cb : string → value → WSRelay → bool * WSRelay)
    (now : Z) (kv : string * item) (r : WSRelay) : WSRelay :=
  if expired now kv.2 then
    let '(keep, r1) := cb kv.1 (data kv.2) r in
    if keep then r1 else with_cache (cache_Remove kv.1 (cache r1)) r1
  else r.

(** Modelled from the spec: the eviction sweep visits every entry of the
    table as it stands when the sweep starts. *)
Definition sweep (cb : string → value → WSRelay → bool * WSRelay)
    (now : Z) (r : WSRelay) : WSRelay :=
  foldr (sweep_entry cb now) r (map_to_list (items (cache r))).

(** The passive expiry sweep of the relay: the sweep of the table with the
    callback of [NewWSRelay]. *)
Definition expiry_sweep `{Transport T} (tr : T) (now : Z) (r : WSRelay) : WSRelay :=
  sweep (checkExpiration tr) now r.

(** ** SendData *)

(** What the caller and the outside world can observe of one [SendData]. *)
Inductive event : Type :=
| EvRead (chunk : list byte) (err : option error)
| EvWrite (s : Session) (frame : list byte) (err : option error).

(** How a call ends: it returns an error value (or nil), it panics, or it is
    still running when the fuel is spent. *)
Inductive outcome : Type :=
| Returned (err : option error)
| Panicked
| OutOfFuel.

(** [4*1024] *)
Definition chunk_size : nat := 4 * 1024.

(** [make([]byte, 4*1024)] *)
Definition make_buf : list byte := replicate chunk_size Byte.x00.

Section SendData.
Context {R T : Type} `{!Reader R} `{!Transport T}.

(** The variables that live across iterations of the loop, with the world
    around it: the reader, the buffer [buf], the transport, the relay (for
    its metrics), and the events so far. *)
Record loop_state : Type := {
  ls_body : R;
  ls_buf : list byte;
  ls_transport : T;
  ls_relay : WSRelay;
  ls_trace : list event
}.

(** How one iteration leaves the loop, if it does. *)
Inductive control : Type :=
| Continue (st : loop_state)
| Break (st : loop_state)
| Return (e : error) (st : loop_state)
| Panic (st : loop_state).

(** The test on [err] that ends every iteration. *)
Definition check_err (err : option error) (st : loop_state) : control :=
  match err with
  | None => Continue st
  | Some EOF => Break st
  | Some e => Return e st
  end.

(** One iteration of the [for] loop.  The bytes read land at the front of
    [buf], and the frame written is the slice [buf[:n]]; a reader that
    reports more bytes than [len(buf)] makes that slice panic.  As in the
    source, the result of [Write] is assigned to the variable [err] that held
    the error of [Read], and the test at the end of the iteration looks at
    that variable. *)
Definition iteration (token : string) (s : Session) (st : loop_state) : control :=
  let '(chunk, err, body1) := Read (ls_body st) (length (ls_buf st)) in
  let n := length chunk in
  let st1 := {| ls_body := body1;
                ls_buf := chunk ++ drop n (ls_buf st);
                ls_transport := ls_transport st;
                ls_relay := ls_relay st;
                ls_trace := ls_trace st ++ [EvRead chunk err] |} in
  if length (ls_buf st) <? n then Panic st1
  else if 0 <? n then
    let frame := take n (ls_buf st1) in
    let '(err, tr1) := Write (ls_transport st1) s frame in
    let st2 := {| ls_body := ls_body st1;
                  ls_buf := ls_buf st1;
                  ls_transport := tr1;
                  ls_relay := ls_relay st1;
                  ls_trace := ls_trace st1 ++ [EvWrite s frame err] |} in
    match err with
    | Some e => Return e st2
    | None =>
        check_err err
          {| ls_body := ls_body st2;
             ls_buf := ls_buf st2;
             ls_transport := ls_transport st2;
             ls_relay := record_chunk token n (ls_relay st2);
             ls_trace := ls_trace st2 |}
    end
  else check_err err st1.

(** The [for] loop, one unit of fuel per iteration. *)
Fixpoint send_loop (fuel : nat) (token : string) (s : Session)
    (st : loop_state) : outcome * loop_state :=
  match fuel with
  | O => (OutOfFuel, st)
  | S fuel' =>
      match iteration token s st with
      | Continue st1 => send_loop fuel' token s st1
      | Break st1 => (Returned None, st1)
      | Return e st1 => (Returned (Some e), st1)
      | Panic st1 => (Panicked, st1)
      end
  end.

(** The state in which [SendData] starts, with a fresh buffer, and in which
    it still is when it returns before its first [Read]. *)
Definition start_state (body : R) (tr : T) (r : WSRelay) : loop_state :=
  {| ls_body := body; ls_buf := make_buf; ls_transport := tr;
     ls_relay := r; ls_trace := [] |}.

(** [SendData]: the outcome of the call and the state it leaves. *)
Definition SendData (fuel : nat) (token : string) (body : R) (tr : T)
    (r : WSRelay) : outcome * loop_state :=
  match cache_Get token (cache r) with
  | None => (Returned (Some ErrTokenNotFound), start_state body tr r)
  | Some v =>
      match type_assert v with
      | None => (Returned (Some ErrNoSession), start_state body tr r)
      | Some conn =>
          match session conn with
          | None => (Returned (Some ErrNoSession), start_state body tr r)
          | Some s => send_loop fuel token s (start_state body tr r)
          end
      end
  end.
End SendData.

Arguments loop_state : clear implicits.
Arguments control : clear implicits.

(** The chunks handed over by the reader, in order. *)
Definition reads_of (tr : list event) : list (list byte) :=
  omap (λ ev, match ev with EvRead chunk _ => Some chunk | _ => None end) tr.

(** The frames a session accepted ([Write] returned nil), in order. *)
Definition frames_of (s : Session) (tr : list event) : list (list byte) :=
  omap (λ ev, match ev with
              | EvWrite s' frame None =>
                  if decide (s' = s) then Some frame else None
              | _ => None
              end) tr.

(** Every [Write] of the trace, whatever its result, with its session. *)
Definition write_targets (tr : list event) : list Session :=
  omap (λ ev, match ev with EvWrite s _ _ => Some s | _ => None end) tr.

(** ** Readers and a transport to run the model on *)

(** A reader that answers its [Read] calls from a fixed script, one entry per
    call, and reports end of input once the script is played. *)
Record scriptReader : Type := { script : list (list byte * option error) }.

#[export] Instance scriptReader_Read : Reader scriptReader :=
  λ st _,
    match script st with
    | [] => ([], Some EOF, st)
    | (chunk, err) :: rest => (chunk, err, {| script := rest |})
    end.

(** A reader over a byte sequence that fills the buffer as far as it can, the
    way [bytes.Reader] does. *)
Record bytesReader : Type := { unread : list byte }.

#[export] Instance bytesReader_Read : Reader bytesReader :=
  λ st len,
    match unread st with
    | [] => ([], Some EOF, st)
    | _ => (take len (unread st), None, {| unread := drop len (unread st) |})
    end.

(** A transport that refuses writes to the sessions listed as closed and
    keeps the frames written to the others. *)
Record wire : Type := {
  closed : list Session;
  delivered : list (Session * list byte)
}.

#[export] Instance wire_Transport : Transport wire := {
  IsClosed w s := bool_decide (s ∈ closed w);
  Write w s frame :=
    if bool_decide (s ∈ closed w)
    then (Some (ErrExternal "session is closed"), w)
    else (None, {| closed := closed w; delivered := delivered w ++ [(s, frame)] |})
}.

(** ** Runs of the relay *)

(** The calls that reach the relay: the four methods and the sweep. *)
Inductive call : Type :=
| CallRegisterToken (now : Z) (token : string)
| CallRegisterSession (token : string) (s : option Session)
| CallSendData (token : string)
| CallDisposeToken (token : string)
| CallSweep (now : Z).

(** One call, with any reader and any transport state around it. *)
Inductive step : call → WSRelay → WSRelay → Prop :=
| step_RegisterToken now token r :
    step (CallRegisterToken now token) r (RegisterToken now token r)
| step_RegisterSession token s r :
    step (CallRegisterSession token s) r (RegisterSession token s r).2
| step_SendData {R T : Type} `{!Reader R} `{!Transport T}
      fuel token (body : R) (tr : T) r :
    step (CallSendData token) r (ls_relay (SendData fuel token body tr r).2)
| step_DisposeToken token r :
    step (CallDisposeToken token) r (DisposeToken token r)
| step_Sweep {T : Type} `{!Transport T} (tr : T) now r :
    step (CallSweep now) r (expiry_sweep tr now r).

Inductive steps : list call → WSRelay → WSRelay → Prop :=
| steps_nil r : steps [] r r
| steps_cons c cs r1 r2 r3 :
    step c r1 r2 → steps cs r2 r3 → steps (c :: cs) r1 r3.

(** The states of a relay made by [NewWSRelay]. *)
Definition reachable (r : WSRelay) : Prop :=
  ∃ cs, steps cs NewWSRelay r.

(** The table holds connection records only. *)
Definition only_conns (c : Cache) : Prop :=
  ∀ key it, items c !! key = Some it → is_Some (type_assert (data it)).

(** The session bound to a token, when the token has a record. *)
Definition bound_session (token : string) (c : Cache) : option (option Session) :=
  v ← cache_Get token c; session <$> type_assert v.

(** The relay after the frames [frames] were written one after the other,
    each followed by its metric updates. *)
Definition record_frames (token : string) (frames : list (list byte))
    (r : WSRelay) : WSRelay :=
  foldl (λ r1 frame, record_chunk token (length frame) r1) r frames.

(** A chunk that carries at least one byte. *)
Definition nonempty (chunk : list byte) : Prop := chunk ≠ [].

#[export] Instance nonempty_dec chunk : Decision (nonempty chunk).
Proof. unfold nonempty. destruct chunk; [right|left]; congruence. Defined.

(** What the events [delta] of a run of the loop say about its end state:
    every write went to [s], the relay was charged once per accepted frame,
    and every accepted frame fits the buffer. *)
Definition loop_effect {R T : Type} (token : string) (s : Session)
    (st st' : loop_state R T) (delta : list event) : Prop :=
  ls_trace st' = ls_trace st ++ delta
  ∧ Forall (λ s', s' = s) (write_targets delta)
  ∧ ls_relay st' = record_frames token (frames_of s delta) (ls_relay st)
  ∧ Forall (λ frame, 0 < length frame ≤ length (ls_buf st)) (frames_of s delta).


(** The verdict of the expiration callback on a value; it depends on neither
    the key nor the counters. *)
Definition keeps `{Transport T} (tr : T) (v : value) : bool :=
  (checkExpiration tr EmptyString v NewWSRelay).1.

(** An entry that the sweep at time [now] removes: its deadline is past and
    the callback does not keep it. *)
Definition evicted `{Transport T} (tr : T) (now : Z) (kv : string * item) : bool :=
  expired now kv.2 && negb (keeps tr (data kv.2)).

(** The expiry sweep over a snapshot [l] of the table. *)
Definition sweep_over `{Transport T} (tr : T) (now : Z)
    (l : list (string * item)) (r : WSRelay) : WSRelay :=
  foldr (sweep_entry (checkExpiration tr) now) r l.

(** The "removed" metric fired exactly once for every token that left the
    table between [r] and [r']. *)
Definition removed_once_per_token (r r' : WSRelay) : Prop :=
  tokenRemovedCounter r' - tokenRemovedCounter r
  = size (items (cache r)) - size (items (cache r')).

(** ** Sample inputs *)

Definition hello : list byte := list_byte_of_string "hello".

(** A transport on which no session is closed and nothing was written. *)
Definition open_wire : wire := {| closed := []; delivered := [] |}.

(** A relay on which token [t1] was issued at time 0 and bound to session 7. *)
Definition bound_relay : WSRelay :=
  (RegisterSession "t1" (Some 7%positive) (RegisterToken 0 "t1" NewWSRelay)).2.

(** A relay that also holds token [t2], issued at time 0 and never bound. *)
Definition two_token_relay : WSRelay := RegisterToken 0 "t2" bound_relay.

(** ** The shape of a send *)

(** The iterations of the loop that go on to the next one, as events, for a
    session [s] and a buffer of [cap] bytes: a read of no bytes without
    error, or a read of a chunk that fits the buffer followed by its
    successful write. *)
Inductive rounds (s : Session) (cap : nat) : list event → Prop :=
| rounds_nil : rounds s cap []
| rounds_idle tr :
    rounds s cap tr → rounds s cap (EvRead [] None :: tr)
| rounds_chunk chunk err tr :
    0 < length chunk ≤ cap →
    rounds s cap tr →
    rounds s cap (EvRead chunk err :: EvWrite s chunk None :: tr).

(** The events of the iteration that ends the loop, with the outcome it
    gives; no events when the fuel ran out first. *)
Inductive ending (s : Session) (cap : nat) : outcome → list event → Prop :=
| ending_fuel : ending s cap OutOfFuel []
| ending_eof : ending s cap (Returned None) [EvRead [] (Some EOF)]
| ending_read_error e :
    e ≠ EOF → ending s cap (Returned (Some e)) [EvRead [] (Some e)]
| ending_write_error chunk err e :
    0 < length chunk ≤ cap →
    ending s cap (Returned (Some e))
      [EvRead chunk err; EvWrite s chunk (Some e)]
| ending_panic chunk err :
    cap < length chunk → ending s cap Panicked [EvRead chunk err].

(** A reader that keeps the contract of [io.Reader]: it never reports more
    bytes than the buffer holds. *)
Definition reader_fits (R : Type) `{!Reader R} : Prop :=
  ∀ (st : R) len, length (Read st len).1.1 ≤ len.

(** Sum of the children of a [CounterVec]. *)
Definition counter_total (v : gmap string nat) : nat :=
  map_fold (λ _ n acc, n + acc) 0 v.

(** What the metrics of a relay satisfy among themselves. *)
Definition metrics_consistent (r : WSRelay) : Prop :=
  Forall (λ n, 1 ≤ n ≤ 4096) (messageSizeHistogram r)
  ∧ length (messageSizeHistogram r) = counter_total (tokenMessagesCounter r)
  ∧ sum_list (messageSizeHistogram r) = counter_total (tokenBytesCounter r)
  ∧ (∀ label,
       counter_value label (tokenMessagesCounter r)
       ≤ counter_value label (tokenBytesCounter r)
       ∧ counter_value label (tokenBytesCounter r)
         ≤ 4096 * counter_value label (tokenMessagesCounter r))
  ∧ size (items (cache r)) ≤ tokenCounter r.

(** ** main.go: the HTTP handlers and the websocket callbacks *)

(** [http.StatusOK], [http.StatusMethodNotAllowed],
    [http.StatusInternalServerError] *)
Definition StatusOK : nat := 200.
Definition StatusMethodNotAllowed : nat := 405.
Definition StatusInternalServerError : nat := 500.

(** [http.MethodPost], [http.MethodGet] *)
Definition MethodPost : string := "POST".
Definition MethodGet : string := "GET".

(** [tokenResponse] *)
Record tokenResponse : Type := { Token : string }.

(** What a handler writes as the body: a line of text, the value it hands to
    the JSON encoder, or nothing. *)
Inductive payload : Type :=
| Text (line : string)
| Json (v : tokenResponse)
| NoBody.

Record response : Type := { status : nat; sent : payload }.

(** [http.Error(w, msg, code)]: the status and the message as one line. *)
Definition http_Error (msg : string) (code : nat) : response :=
  {| status := code; sent := Text msg |}.

(** How the serving of a request ends: a response, an upgrade to a websocket
    (nothing written by the handler), a panic (the server drops the
    connection), or still running when the fuel is spent. *)
Inductive served : Type :=
| Responded (resp : response)
| Upgraded
| Aborted
| Running.

(** The slice [s[n:]] of a string; [None] is the panic for [n > len(s)]. *)
Fixpoint slice_from (n : nat) (s : string) : option string :=
  match n with
  | O => Some s
  | S n' =>
      match s with
      | EmptyString => None
      | String _ s' => slice_from n' s'
      end
  end.

(** The values of [s.Keys], a [map[string]interface{}]: a string, or a value
    of any other dynamic type. *)
Inductive keyval : Type :=
| KeyString (s : string)
| KeyOther.

(** [session.Close()] *)
Class Closer (T : Type) : Type :=
  Close : T → Session → T.

#[export] Instance wire_Close : Closer wire :=
  λ w s, {| closed := s :: closed w; delivered := delivered w |}.

(** The handler of [/session]; [generated] is what [generateToken()] yields
    for this request. *)
Definition sessionHandler (method : string) (generated : string) (now : Z)
    (r : WSRelay) : response * WSRelay :=
  if negb (String.eqb method MethodPost)
  then (http_Error "Invalid request method" StatusMethodNotAllowed, r)
  else
    ({| status := StatusOK; sent := Json {| Token := generated |} |},
     RegisterToken now generated r).

(** The keys the handler of [/session/receive/] passes to
    [HandleRequestWithKeys]. *)
Definition receive_keys (token : string) : gmap string keyval :=
  {[ "token" := KeyString token ]}.

(** The handler of [/session/receive/]; [handle keys] is the error that
    [Melody.HandleRequestWithKeys] returns. *)
Definition receiveHandler (method path : string)
    (handle : gmap string keyval → option error) : served :=
  if negb (String.eqb method MethodGet)
  then Responded (http_Error "Invalid request method" StatusMethodNotAllowed)
  else
    match slice_from (String.length "/session/receive/") path with
    | None => Aborted
    | Some token =>
        match handle (receive_keys token) with
        | Some _ =>
            Responded (http_Error "Error handling request" StatusInternalServerError)
        | None => Upgraded
        end
    end.

(** The handler of [/session/send/]: how the request is served, and the
    state [SendData] leaves. *)
Definition sendHandler {R T : Type} `{!Reader R} `{!Transport T}
    (fuel : nat) (method path : string) (body : R) (tr : T) (r : WSRelay)
  : served * loop_state R T :=
  if negb (String.eqb method MethodPost)
  then (Responded (http_Error "Invalid request method" StatusMethodNotAllowed),
        start_state body tr r)
  else
    match slice_from (String.length "/session/send/") path with
    | None => (Aborted, start_state body tr r)
    | Some token =>
        match SendData fuel token body tr r with
        | (Returned (Some _), st) =>
            (Responded (http_Error "Error sending data" StatusInternalServerError),
             st)
        | (Returned None, st) =>
            (Responded {| status := StatusOK; sent := NoBody |}, st)
        | (Panicked, st) => (Aborted, st)
        | (OutOfFuel, st) => (Running, st)
        end
    end.

(** The callback given to [HandleConnect], for a session at address [s] with
    keys [keys]: the transport and the relay afterwards; [None] is the panic
    of the assertion [token.(string)]. *)
Definition HandleConnect {T : Type} `{!Closer T} (keys : gmap string keyval)
    (s : Session) (tr : T) (r : WSRelay) : option (T * WSRelay) :=
  match keys !! "token" with
  | None => Some (Close tr s, r)
  | Some KeyOther => None
  | Some (KeyString token) =>
      match RegisterSession token (Some s) r with
      | (Some _, r1) => Some (Close tr s, r1)
      | (None, r1) => Some (tr, r1)
      end
  end.

(** The callback given to [HandleDisconnect]. *)
Definition HandleDisconnect (keys : gmap string keyval) (r : WSRelay)
  : option WSRelay :=
  match keys !! "token" with
  | None => Some r
  | Some KeyOther => None
  | Some (KeyString token) => Some (DisposeToken token r)
  end.

(* ================================================================= *)
(** * Properties *)

(** ** The table *)

Lemma cache_Get_Set now key v c key' :
  cache_Get key' (cache_Set now key v c)
  = if decide (key = key') then Some v else cache_Get key' c.
Proof.
  unfold cache_Get, cache_Set; simpl.
  rewrite lookup_insert. by case_decide.
Qed.

Lemma cache_Get_Remove key c key' :
  cache_Get key' (cache_Remove key c)
  = if decide (key = key') then None else cache_Get key' c.
Proof.
  unfold cache_Get, cache_Remove; simpl.
  rewrite lookup_delete. by case_decide.
Qed.

Lemma cache_Get_conn_store key conn c key' :
  cache_Get key' (conn_store key conn c)
  = if decide (key = key')
    then (λ _, Conn conn) <$> cache_Get key' c
    else cache_Get key' c.
Proof.
  unfold cache_Get, conn_store; simpl.
  rewrite lookup_alter. case_decide; [subst key'|done].
  by destruct (items c !! key).
Qed.

Lemma cache_Remove_absent key c :
  cache_Get key c = None → cache_Remove key c = c.
Proof.
  unfold cache_Get, cache_Remove. intros H.
  destruct c as [m t]; simpl in *. f_equal.
  apply delete_id. by destruct (m !! key).
Qed.

(** ** The metric updates of a send *)

Lemma record_frames_snoc token frames frame r :
  record_frames token (frames ++ [frame]) r
  = record_chunk token (length frame) (record_frames token frames r).
Proof. unfold record_frames. by rewrite foldl_app. Qed.

Lemma record_frames_cache token frames r :
  cache (record_frames token frames r) = cache r
  ∧ tokenCounter (record_frames token frames r) = tokenCounter r
  ∧ tokenRemovedCounter (record_frames token frames r) = tokenRemovedCounter r.
Proof.
  induction frames as [|frame frames IH] using rev_ind; [done|].
  rewrite record_frames_snoc. simpl. exact IH.
Qed.

Lemma record_frames_histogram token frames r :
  messageSizeHistogram (record_frames token frames r)
  = messageSizeHistogram r ++ (length <$> frames).
Proof.
  induction frames as [|frame frames IH] using rev_ind.
  - simpl. by rewrite app_nil_r.
  - rewrite record_frames_snoc. simpl.
    by rewrite IH, fmap_app, app_assoc.
Qed.

Lemma counter_value_Add label n v label' :
  counter_value label' (counter_Add label n v)
  = counter_value label' v + (if decide (label = label') then n else 0).
Proof.
  unfold counter_Add, counter_value at 1. rewrite lookup_insert.
  case_decide; subst; simpl; [done|]. unfold counter_value. lia.
Qed.

Lemma record_frames_bytes token frames r label :
  counter_value label (tokenBytesCounter (record_frames token frames r))
  = counter_value label (tokenBytesCounter r)
    + (if decide (token = label) then length (concat frames) else 0).
Proof.
  induction frames as [|frame frames IH] using rev_ind.
  - simpl. case_decide; lia.
  - rewrite record_frames_snoc. simpl.
    rewrite counter_value_Add, IH, concat_app, length_app. simpl.
    rewrite app_nil_r. case_decide; lia.
Qed.

Lemma record_frames_messages token frames r label :
  counter_value label (tokenMessagesCounter (record_frames token frames r))
  = counter_value label (tokenMessagesCounter r)
    + (if decide (token = label) then length frames else 0).
Proof.
  induction frames as [|frame frames IH] using rev_ind.
  - simpl. case_decide; lia.
  - rewrite record_frames_snoc. simpl.
    rewrite counter_value_Add, IH, length_app. simpl.
    case_decide; lia.
Qed.

(** ** Traces *)

Lemma frames_of_app s tr1 tr2 :
  frames_of s (tr1 ++ tr2) = frames_of s tr1 ++ frames_of s tr2.
Proof. apply omap_app. Qed.


Lemma write_targets_app tr1 tr2 :
  write_targets (tr1 ++ tr2) = write_targets tr1 ++ write_targets tr2.
Proof. apply omap_app. Qed.

Lemma frames_of_accepted s frame tr :
  frames_of s (EvWrite s frame None :: tr) = frame :: frames_of s tr.
Proof. unfold frames_of. simpl. by rewrite decide_True. Qed.

Lemma frames_of_read s chunk err tr :
  frames_of s (EvRead chunk err :: tr) = frames_of s tr.
Proof. done. Qed.

Lemma reads_of_read chunk err tr :
  reads_of (EvRead chunk err :: tr) = chunk :: reads_of tr.
Proof. done. Qed.

Lemma reads_of_write s frame err tr :
  reads_of (EvWrite s frame err :: tr) = reads_of tr.
Proof. done. Qed.


(** ** The loop of SendData *)

Section Loop.
Context {R T : Type} `{!Reader R} `{!Transport T}.

Lemma loop_effect_cons token s (st st1 st' : loop_state R T) ev delta :
  ls_trace st1 = ls_trace st ++ [ev] →
  length (ls_buf st1) = length (ls_buf st) →
  ls_relay st1 = record_frames token (frames_of s [ev]) (ls_relay st) →
  Forall (λ s', s' = s) (write_targets [ev]) →
  Forall (λ frame, 0 < length frame ≤ length (ls_buf st)) (frames_of s [ev]) →
  loop_effect token s st1 st' delta →
  loop_effect token s st st' (ev :: delta).
Proof.
  intros Htr Hbuf Hrel Htg Hfr (Htr' & Htg' & Hrel' & Hfr').
  change (ev :: delta) with ([ev] ++ delta).
  unfold loop_effect.
  rewrite write_targets_app, frames_of_app, !Forall_app.
  split_and!; try done.
  - by rewrite Htr', Htr, <- app_assoc.
  - rewrite Hrel', Hrel. unfold record_frames. by rewrite foldl_app.
  - by rewrite <- Hbuf.
Qed.

Lemma loop_effect_refl token s (st : loop_state R T) :
  loop_effect token s st st [].
Proof.
  unfold loop_effect. simpl. rewrite app_nil_r. split_and!; done.
Qed.

(** The slice [buf[:n]] after a read of [n] bytes is the chunk read. *)
Lemma frame_is_chunk (chunk buf : list byte) :
  take (length chunk) (chunk ++ drop (length chunk) buf) = chunk.
Proof. by rewrite take_app_length. Qed.

Lemma buf_length_kept (chunk buf : list byte) :
  length chunk ≤ length buf →
  length (chunk ++ drop (length chunk) buf) = length buf.
Proof. intros Hle. rewrite length_app, length_drop. lia. Qed.

(** The effect of a run of the loop, however it ends. *)
Lemma send_loop_effect fuel token s st o st' :
  send_loop fuel token s st = (o, st') →
  ∃ delta,
    loop_effect token s st st' delta
    ∧ (o ≠ Panicked → length (ls_buf st') = length (ls_buf st))
    ∧ (o = Returned None →
       frames_of s delta = filter nonempty (reads_of delta)).
Proof.
  revert st. induction fuel as [|fuel IH]; intros st Hrun; simpl in Hrun.
  { inversion Hrun; subst. exists []. split; [apply loop_effect_refl|done]. }
  unfold iteration in Hrun.
  destruct (Read (ls_body st) (length (ls_buf st))) as [[chunk err] body1].
  destruct (length (ls_buf st) <? length chunk) eqn:Hfit.
  { inversion Hrun; subst. exists [EvRead chunk err].
    split; [|done].
    unfold loop_effect; simpl. split_and!; done. }
  apply Nat.ltb_ge in Hfit.
  destruct (0 <? length chunk) eqn:Hpos.
  - apply Nat.ltb_lt in Hpos.
    cbn [ls_buf ls_transport ls_body ls_relay ls_trace] in Hrun.
    rewrite frame_is_chunk in Hrun.
    destruct (Write (ls_transport st) s chunk) as [[e|] tr1].
    + inversion Hrun; subst.
      exists [EvRead chunk err; EvWrite s chunk (Some e)].
      split; [|split; [intros _; simpl; by apply buf_length_kept|done]].
      unfold loop_effect; simpl. rewrite <- app_assoc. simpl.
      split_and!; try done. by repeat constructor.
    + cbn [check_err ls_buf ls_transport ls_body ls_relay ls_trace] in Hrun.
      apply IH in Hrun as (delta & Heff & Hbuf & Hok).
      cbn [ls_buf] in Hbuf.
      exists (EvRead chunk err :: EvWrite s chunk None :: delta).
      split; [|split].
      * eapply (loop_effect_cons _ _ _
                  {| ls_body := body1;
                     ls_buf := chunk ++ drop (length chunk) (ls_buf st);
                     ls_transport := ls_transport st;
                     ls_relay := ls_relay st;
                     ls_trace := ls_trace st ++ [EvRead chunk err] |});
          simpl; try done; [by apply buf_length_kept|].
        eapply loop_effect_cons; [| | | | |exact Heff]; simpl.
        -- by rewrite <- app_assoc.
        -- done.
        -- by rewrite decide_True.
        -- by repeat constructor.
        -- rewrite decide_True by done. repeat constructor; [done|].
           by rewrite buf_length_kept.
      * intros Hnp. rewrite (Hbuf Hnp). by apply buf_length_kept.
      * intros Hret.
        rewrite frames_of_read, frames_of_accepted, (Hok Hret).
        rewrite reads_of_read, reads_of_write.
        rewrite filter_cons_True; [done|].
        unfold nonempty. destruct chunk; [simpl in Hpos; lia|done].
  - apply Nat.ltb_ge in Hpos.
    assert (chunk = []) as -> by (destruct chunk; [done|simpl in Hpos; lia]).
    simpl in Hrun.
    set (st1 := {| ls_body := body1; ls_buf := ls_buf st;
                   ls_transport := ls_transport st; ls_relay := ls_relay st;
                   ls_trace := ls_trace st ++ [EvRead [] err] |}) in *.
    assert (Hstep : ∀ rest, loop_effect token s st1 st' rest →
                            loop_effect token s st st' (EvRead [] err :: rest)).
    { intros rest. apply loop_effect_cons; simpl; done. }
    assert (Hfilter : ∀ rest : list event,
               filter nonempty (reads_of (EvRead [] err :: rest))
               = filter nonempty (reads_of rest)).
    { intros rest. rewrite reads_of_read, filter_cons_False; [done|].
      unfold nonempty. by intros Hne. }
    destruct err as [e|]; simpl in Hrun.
    + assert (Hend : st' = st1 ∧ o = match e with EOF => Returned None
                                      | _ => Returned (Some e) end).
      { destruct e; inversion Hrun; by subst. }
      destruct Hend as [-> ->].
      exists [EvRead [] (Some e)]. split; [|done].
      apply Hstep, loop_effect_refl.
    + apply IH in Hrun as (delta & Heff & Hbuf & Hok).
      exists (EvRead [] None :: delta). split; [by apply Hstep|].
      split; [done|]. intros Hret.
      rewrite Hfilter, frames_of_read. by apply Hok.
Qed.
End Loop.

(** ** SendData as a whole *)

Section Send.
Context {R T : Type} `{!Reader R} `{!Transport T}.

Lemma SendData_not_found fuel token (body : R) (tr : T) r :
  cache_Get token (cache r) = None →
  SendData fuel token body tr r
  = (Returned (Some ErrTokenNotFound), start_state body tr r).
Proof. intros Hget. unfold SendData. by rewrite Hget. Qed.

Lemma SendData_unbound fuel token (body : R) (tr : T) r :
  is_Some (cache_Get token (cache r)) →
  (∀ s, bound_session token (cache r) ≠ Some (Some s)) →
  SendData fuel token body tr r
  = (Returned (Some ErrNoSession), start_state body tr r).
Proof.
  intros [v Hget] Hnone. unfold SendData, bound_session in *.
  rewrite Hget in *. simpl in Hnone.
  destruct (type_assert v) as [[[s|]]|]; try done.
  by destruct (Hnone s).
Qed.

Lemma SendData_bound fuel token (body : R) (tr : T) r s :
  bound_session token (cache r) = Some (Some s) →
  SendData fuel token body tr r
  = send_loop fuel token s (start_state body tr r).
Proof.
  unfold SendData, bound_session. intros Hb.
  destruct (cache_Get token (cache r)) as [v|]; [|done]. simpl in Hb.
  destruct (type_assert v) as [[[s'|]]|]; simpl in Hb; try done.
  by inversion Hb.
Qed.

(** A call that enters the loop, or returns nil, found a bound session. *)
Lemma SendData_success_bound fuel token (body : R) (tr : T) r st' :
  SendData fuel token body tr r = (Returned None, st') →
  ∃ s, bound_session token (cache r) = Some (Some s).
Proof.
  unfold SendData, bound_session.
  destruct (cache_Get token (cache r)) as [v|]; [|done]. simpl.
  destruct (type_assert v) as [[[s|]]|]; try done. by exists s.
Qed.

(** The table and the two token counters are the same after any call. *)
Lemma SendData_cache fuel token (body : R) (tr : T) r :
  cache (ls_relay (SendData fuel token body tr r).2) = cache r
  ∧ tokenCounter (ls_relay (SendData fuel token body tr r).2) = tokenCounter r
  ∧ tokenRemovedCounter (ls_relay (SendData fuel token body tr r).2)
    = tokenRemovedCounter r.
Proof.
  destruct (cache_Get token (cache r)) as [v|] eqn:Hget.
  2: { by rewrite SendData_not_found. }
  destruct (bound_session token (cache r)) as [[s|]|] eqn:Hb.
  - rewrite (SendData_bound _ _ _ _ _ s Hb).
    destruct (send_loop fuel token s (start_state body tr r)) as [o st'] eqn:Hrun.
    apply send_loop_effect in Hrun as (delta & (_ & _ & Hrel & _) & _).
    simpl in *. rewrite Hrel. apply record_frames_cache.
  - rewrite SendData_unbound; [done|by rewrite Hget|]. by rewrite Hb.
  - rewrite SendData_unbound; [done|by rewrite Hget|]. by rewrite Hb.
Qed.
End Send.



(** C3. A token that is absent from the table makes [SendData] return
    "token not found" before anything is read or written, with the relay,
    and so every counter and the histogram, unchanged; a token that is in the
    table without a bound session makes it return "no session associated
    with this token". *)
Theorem SendData_unknown_or_unbound {R T : Type} `{!Reader R} `{!Transport T}
    fuel token (body : R) (tr : T) r :
  (cache_Get token (cache r) = None →
   SendData fuel token body tr r
   = (Returned (Some ErrTokenNotFound), start_state body tr r)
   ∧ metrics (ls_relay (SendData fuel token body tr r).2) = metrics r)
  ∧ (is_Some (cache_Get token (cache r)) →
     (∀ s, bound_session token (cache r) ≠ Some (Some s)) →
     (SendData fuel token body tr r).1 = Returned (Some ErrNoSession)).
Proof.
  split.
  - intros Hget. by rewrite SendData_not_found.
  - intros Hin Hnone. by rewrite SendData_unbound.
Qed.

Lemma SendData_unknown_or_unbound_witness :
  (SendData 3 "unknown-token" {| unread := hello |} open_wire NewWSRelay
   = (Returned (Some ErrTokenNotFound),
      start_state {| unread := hello |} open_wire NewWSRelay)
   ∧ metrics (ls_relay
        (SendData 3 "unknown-token" {| unread := hello |} open_wire NewWSRelay).2)
     = metrics NewWSRelay)
  ∧ (SendData 3 "t2" {| unread := hello |} open_wire
       (RegisterToken 0 "t2" NewWSRelay)).1
    = Returned (Some ErrNoSession).
Proof.
  split.
  - apply (SendData_unknown_or_unbound 3 "unknown-token" {| unread := hello |}
             open_wire NewWSRelay).
    reflexivity.
  - apply (SendData_unknown_or_unbound 3 "t2" {| unread := hello |}
             open_wire (RegisterToken 0 "t2" NewWSRelay)).
    + vm_compute. eexists. reflexivity.
    + intros s. vm_compute. discriminate.
Defined.

Lemma RegisterToken_get now token r :
  cache_Get token (cache (RegisterToken now token r))
  = Some (Conn {| session := None |}).
Proof.
  unfold RegisterToken. simpl. rewrite cache_Get_Set. by rewrite decide_True.
Qed.

(** C6. [RegisterToken] has no error result.  It puts a record without a
    session under the token, leaves the other tokens as they were, and adds
    exactly 1 to the counter of tokens issued; a [SendData] for the token
    right after it returns "no session associated with this token" without
    reading or writing anything. *)
Theorem RegisterToken_issues_unbound {R T : Type} `{!Reader R} `{!Transport T}
    now token r fuel (body : R) (tr : T) :
  cache_Get token (cache (RegisterToken now token r))
  = Some (Conn {| session := None |})
  ∧ (∀ other, other ≠ token →
       cache_Get other (cache (RegisterToken now token r))
       = cache_Get other (cache r))
  ∧ tokenCounter (RegisterToken now token r) = tokenCounter r + 1
  ∧ tokenRemovedCounter (RegisterToken now token r) = tokenRemovedCounter r
  ∧ SendData fuel token body tr (RegisterToken now token r)
    = (Returned (Some ErrNoSession),
       start_state body tr (RegisterToken now token r)).
Proof.
  pose proof (RegisterToken_get now token r) as Hget.
  split_and!.
  - done.
  - intros other Hne. unfold RegisterToken. simpl.
    rewrite cache_Get_Set. by rewrite decide_False.
  - simpl. lia.
  - done.
  - apply SendData_unbound.
    + by rewrite Hget.
    + intros s. unfold bound_session. by rewrite Hget.
Qed.

(** ** Single iterations *)

Section Iteration.
Context {R T : Type} `{!Reader R} `{!Transport T}.

(** A read of [n > 0] bytes whose write succeeds: the chunk is written and
    recorded and the loop goes on, whatever error came with the read. *)
Lemma iteration_written token s (st : loop_state R T) chunk err body1 tr1 :
  Read (ls_body st) (length (ls_buf st)) = (chunk, err, body1) →
  0 < length chunk ≤ length (ls_buf st) →
  Write (ls_transport st) s chunk = (None, tr1) →
  iteration token s st
  = Continue
      {| ls_body := body1;
         ls_buf := chunk ++ drop (length chunk) (ls_buf st);
         ls_transport := tr1;
         ls_relay := record_chunk token (length chunk) (ls_relay st);
         ls_trace := (ls_trace st ++ [EvRead chunk err])
                     ++ [EvWrite s chunk None] |}.
Proof.
  intros Hread [Hpos Hfit] Hwrite. unfold iteration. rewrite Hread.
  apply Nat.ltb_ge in Hfit. rewrite Hfit.
  apply Nat.ltb_lt in Hpos. rewrite Hpos.
  cbn [ls_buf ls_transport ls_body ls_relay ls_trace].
  rewrite frame_is_chunk, Hwrite. done.
Qed.

(** A read of no bytes with [io.EOF] leaves the loop. *)
Lemma iteration_eof token s (st : loop_state R T) body1 :
  Read (ls_body st) (length (ls_buf st)) = ([], Some EOF, body1) →
  iteration token s st
  = Break {| ls_body := body1;
             ls_buf := ls_buf st;
             ls_transport := ls_transport st;
             ls_relay := ls_relay st;
             ls_trace := ls_trace st ++ [EvRead [] (Some EOF)] |}.
Proof.
  intros Hread. unfold iteration. rewrite Hread. simpl.
  destruct (length (ls_buf st) <? 0) eqn:Hfit; [|done].
  apply Nat.ltb_lt in Hfit. lia.
Qed.
End Iteration.

Lemma send_loop_S {R T : Type} `{!Reader R} `{!Transport T}
    fuel token s (st : loop_state R T) :
  send_loop (S fuel) token s st
  = match iteration token s st with
    | Continue st1 => send_loop fuel token s st1
    | Break st1 => (Returned None, st1)
    | Return e st1 => (Returned (Some e), st1)
    | Panic st1 => (Panicked, st1)
    end.
Proof. done. Qed.

Lemma make_buf_length : length make_buf = 4096.
Proof. apply length_replicate. Qed.

(** Binding a session to a token that holds a record. *)
Lemma RegisterSession_bound token s r conn :
  cache_Get token (cache r) = Some (Conn conn) →
  (RegisterSession token s r).1 = None
  ∧ cache_Get token (cache (RegisterSession token s r).2)
    = Some (Conn {| session := s |})
  ∧ bound_session token (cache (RegisterSession token s r).2) = Some s
  ∧ (∀ other, other ≠ token →
       cache_Get other (cache (RegisterSession token s r).2)
       = cache_Get other (cache r))
  ∧ metrics (RegisterSession token s r).2 = metrics r.
Proof.
  intros Hget. unfold RegisterSession. rewrite Hget. simpl.
  split_and!; try done.
  - rewrite cache_Get_conn_store, decide_True by done. by rewrite Hget.
  - unfold bound_session. rewrite cache_Get_conn_store, decide_True by done.
    by rewrite Hget.
  - intros other Hne. by rewrite cache_Get_conn_store, decide_False.
Qed.

(** C5. Part one: when [SendData] runs for a token bound to session [s],
    however the call ends, the relay afterwards is the relay before with the
    three metric updates applied once for every frame the session accepted,
    in order: the histogram gained the length of each frame, the token's
    byte counter grew by their total length and its message counter by their
    number, and each frame has at least one byte.  Part two, the scenario:
    after token [t1] is issued and bound to [chanA], sending the five bytes
    "hello" returns nil, makes exactly one write, of "hello" to [chanA], and
    raises the byte counter of [t1] by 5 and its message counter by 1. *)
Theorem SendData_records_chunks :
  (∀ (R T : Type) `(!Reader R) `(!Transport T)
     fuel token (body : R) (tr : T) r s,
     bound_session token (cache r) = Some (Some s) →
     ls_relay (SendData fuel token body tr r).2
     = record_frames token
         (frames_of s (ls_trace (SendData fuel token body tr r).2)) r
     ∧ Forall (λ s', s' = s)
         (write_targets (ls_trace (SendData fuel token body tr r).2))
     ∧ Forall (λ frame, 0 < length frame)
         (frames_of s (ls_trace (SendData fuel token body tr r).2))
     ∧ messageSizeHistogram (ls_relay (SendData fuel token body tr r).2)
       = messageSizeHistogram r
         ++ (length <$> frames_of s (ls_trace (SendData fuel token body tr r).2))
     ∧ counter_value token
         (tokenBytesCounter (ls_relay (SendData fuel token body tr r).2))
       = counter_value token (tokenBytesCounter r)
         + length (concat (frames_of s (ls_trace (SendData fuel token body tr r).2)))
     ∧ counter_value token
         (tokenMessagesCounter (ls_relay (SendData fuel token body tr r).2))
       = counter_value token (tokenMessagesCounter r)
         + length (frames_of s (ls_trace (SendData fuel token body tr r).2)))
  ∧ (∀ (T : Type) `(!Transport T) now t1 chanA (tr tr' : T) r0 fuel,
       Write tr chanA hello = (None, tr') →
       (RegisterSession t1 (Some chanA) (RegisterToken now t1 r0)).1 = None
       ∧ (SendData (S (S fuel)) t1 {| unread := hello |} tr
            (RegisterSession t1 (Some chanA) (RegisterToken now t1 r0)).2).1
         = Returned None
       ∧ ls_trace
           (SendData (S (S fuel)) t1 {| unread := hello |} tr
              (RegisterSession t1 (Some chanA) (RegisterToken now t1 r0)).2).2
         = [EvRead hello None; EvWrite chanA hello None; EvRead [] (Some EOF)]
       ∧ ls_transport
           (SendData (S (S fuel)) t1 {| unread := hello |} tr
              (RegisterSession t1 (Some chanA) (RegisterToken now t1 r0)).2).2
         = tr'
       ∧ counter_value t1 (tokenBytesCounter (ls_relay
           (SendData (S (S fuel)) t1 {| unread := hello |} tr
              (RegisterSession t1 (Some chanA) (RegisterToken now t1 r0)).2).2))
         = counter_value t1 (tokenBytesCounter r0) + 5
       ∧ counter_value t1 (tokenMessagesCounter (ls_relay
           (SendData (S (S fuel)) t1 {| unread := hello |} tr
              (RegisterSession t1 (Some chanA) (RegisterToken now t1 r0)).2).2))
         = counter_value t1 (tokenMessagesCounter r0) + 1
       ∧ messageSizeHistogram (ls_relay
           (SendData (S (S fuel)) t1 {| unread := hello |} tr
              (RegisterSession t1 (Some chanA) (RegisterToken now t1 r0)).2).2)
         = messageSizeHistogram r0 ++ [5]).
Proof.
  split.
  - intros R T ? ? fuel token body tr r s Hb.
    rewrite (SendData_bound _ _ _ _ _ s Hb).
    destruct (send_loop fuel token s (start_state body tr r)) as [o st'] eqn:Hrun.
    apply send_loop_effect in Hrun as (delta & (Htr & Htg & Hrel & Hfr) & _).
    cbn [start_state ls_trace ls_relay ls_buf app fst snd] in *.
    rewrite Htr, Hrel.
    split_and!; try done.
    + eapply Forall_impl; [exact Hfr|]. simpl. intros frame. lia.
    + apply record_frames_histogram.
    + rewrite record_frames_bytes. by rewrite decide_True.
    + rewrite record_frames_messages. by rewrite decide_True.
  - intros T ? now t1 chanA tr tr' r0 fuel Hwrite.
    pose proof (RegisterToken_get now t1 r0) as Hget.
    destruct (RegisterSession_bound t1 (Some chanA) _ _ Hget)
      as (Hnil & _ & Hb & _ & Hmet).
    split; [done|].
    rewrite (SendData_bound _ _ _ _ _ chanA Hb).
    set (r := (RegisterSession t1 (Some chanA) (RegisterToken now t1 r0)).2) in *.
    rewrite send_loop_S.
    rewrite (iteration_written t1 chanA _ hello None {| unread := [] |} tr').
    2: { cbn [start_state ls_body ls_buf]. rewrite make_buf_length. reflexivity. }
    2: { cbn [start_state ls_buf]. rewrite make_buf_length.
         change (length hello) with 5. lia. }
    2: { done. }
    rewrite send_loop_S.
    rewrite (iteration_eof t1 chanA _ {| unread := [] |}) by reflexivity.
    cbn [fst snd ls_trace ls_transport ls_relay start_state app].
    change (length hello) with 5.
    assert (Hm : tokenBytesCounter r = tokenBytesCounter r0
                 ∧ tokenMessagesCounter r = tokenMessagesCounter r0
                 ∧ messageSizeHistogram r = messageSizeHistogram r0).
    { unfold metrics in Hmet. simpl in Hmet. by inversion Hmet. }
    destruct Hm as (Hmb & Hmm & Hmh).
    split_and!; try done.
    + cbn [record_chunk tokenBytesCounter].
      rewrite counter_value_Add, decide_True, Hmb by done. done.
    + cbn [record_chunk tokenMessagesCounter].
      rewrite counter_value_Add, decide_True, Hmm by done. done.
    + cbn [record_chunk messageSizeHistogram]. by rewrite Hmh.
Qed.

Lemma SendData_records_chunks_witness :
  ls_relay
    (SendData 5 "t1" {| script := [(hello, None); ([], None); (hello, Some EOF)] |}
       open_wire bound_relay).2
  = record_frames "t1"
      (frames_of 7%positive
         (ls_trace
            (SendData 5 "t1"
               {| script := [(hello, None); ([], None); (hello, Some EOF)] |}
               open_wire bound_relay).2))
      bound_relay
  ∧ (SendData 2 "t1" {| unread := hello |} open_wire
       (RegisterSession "t1" (Some 7%positive)
          (RegisterToken 0 "t1" NewWSRelay)).2).1
    = Returned None.
Proof.
  split.
  - destruct (proj1 SendData_records_chunks scriptReader wire _ _ 5 "t1"
                {| script := [(hello, None); ([], None); (hello, Some EOF)] |}
                open_wire bound_relay 7%positive) as (Hrel & _).
    + vm_compute. reflexivity.
    + exact Hrel.
  - destruct (proj2 SendData_records_chunks wire _ 0%Z "t1" 7%positive open_wire
                {| closed := []; delivered := [(7%positive, hello)] |}
                NewWSRelay 0) as (_ & Hret & _).
    + reflexivity.
    + exact Hret.
Defined.

(** ** The expiration callback and the sweep *)

Section Sweep.
Context {T : Type} `{!Transport T} (tr : T) (now : Z).

Lemma checkExpiration_keeps key v r :
  checkExpiration tr key v r
  = (keeps tr v, if keeps tr v then r else inc_removed r).
Proof.
  unfold keeps, checkExpiration.
  destruct (type_assert v) as [[[s|]]|]; simpl; try done.
  by destruct (IsClosed tr s).
Qed.


Lemma sweep_entry_evicted kv r :
  sweep_entry (checkExpiration tr) now kv r
  = if evicted tr now kv
    then with_cache (cache_Remove kv.1 (cache r)) (inc_removed r)
    else r.
Proof.
  unfold sweep_entry, evicted. destruct (expired now kv.2); [|done].
  rewrite checkExpiration_keeps. by destruct (keeps tr (data kv.2)).
Qed.

Lemma sweep_over_cons kv l r :
  sweep_over tr now (kv :: l) r
  = if evicted tr now kv
    then with_cache (cache_Remove kv.1 (cache (sweep_over tr now l r)))
           (inc_removed (sweep_over tr now l r))
    else sweep_over tr now l r.
Proof. unfold sweep_over. simpl. apply sweep_entry_evicted. Qed.



(** The sweep adds no entry and changes none. *)
Lemma sweep_over_sub l r key :
  items (cache (sweep_over tr now l r)) !! key = None
  ∨ items (cache (sweep_over tr now l r)) !! key = items (cache r) !! key.
Proof.
  induction l as [|kv l IH]; [by right|].
  rewrite sweep_over_cons. destruct (evicted tr now kv); [|done].
  simpl. rewrite lookup_delete. case_decide; [by left|done].
Qed.

Lemma sweep_over_counters l r :
  tokenRemovedCounter (sweep_over tr now l r)
  = tokenRemovedCounter r + length (filter (λ kv, evicted tr now kv = true) l)
  ∧ tokenCounter (sweep_over tr now l r) = tokenCounter r
  ∧ messageSizeHistogram (sweep_over tr now l r) = messageSizeHistogram r
  ∧ tokenBytesCounter (sweep_over tr now l r) = tokenBytesCounter r
  ∧ tokenMessagesCounter (sweep_over tr now l r) = tokenMessagesCounter r.
Proof.
  induction l as [|kv l (IH1 & IH2 & IH3 & IH4 & IH5)].
  { simpl. split_and!; try done; lia. }
  rewrite sweep_over_cons, filter_cons.
  destruct (evicted tr now kv) eqn:Hev.
  - rewrite decide_True by done. simpl. split_and!; try done; lia.
  - rewrite decide_False by done. done.
Qed.

Lemma expiry_sweep_over r :
  expiry_sweep tr now r = sweep_over tr now (map_to_list (items (cache r))) r.
Proof. done. Qed.
End Sweep.




(** ** Invariants of runs *)

Lemma step_cache_lookup c r r' key :
  step c r r' →
  items (cache r') !! key = None
  ∨ items (cache r') !! key = items (cache r) !! key
  ∨ ∃ conn it, items (cache r') !! key = Some it ∧ data it = Conn conn
               ∧ (is_Some (items (cache r) !! key)
                  ∨ ∃ now, c = CallRegisterToken now key).
Proof.
  intros Hstep. destruct Hstep.
  - unfold RegisterToken. simpl. rewrite lookup_insert.
    case_decide; [subst|by right; left].
    right; right. eexists _, _. split; [done|]. split; [done|]. right. eauto.
  - unfold RegisterSession.
    destruct (cache_Get token (cache r)) as [v|]; [|by right; left].
    destruct (type_assert v) as [conn|]; [|by right; left].
    simpl. rewrite lookup_alter.
    case_decide; [subst|by right; left].
    destruct (items (cache r) !! key) as [it|] eqn:Hit; [|by left].
    right; right. simpl. eexists _, _. split; [done|]. split; [done|].
    by left.
  - right; left. by destruct (SendData_cache fuel token body tr r) as [-> _].
  - unfold DisposeToken. simpl. rewrite lookup_delete.
    case_decide; [by left|by right; left].
  - rewrite expiry_sweep_over.
    destruct (sweep_over_sub tr now (map_to_list (items (cache r))) r key)
      as [H|H]; [by left|by right; left].
Qed.

Lemma step_only_conns c r r' :
  step c r r' → only_conns (cache r) → only_conns (cache r').
Proof.
  intros Hstep Hinv key it Hit.
  destruct (step_cache_lookup c r r' key Hstep)
    as [H|[H|(conn & it' & H & Hd & _)]].
  - congruence.
  - rewrite H in Hit. by apply (Hinv key).
  - assert (it' = it) as -> by congruence. by rewrite Hd.
Qed.

Lemma steps_only_conns cs r r' :
  steps cs r r' → only_conns (cache r) → only_conns (cache r').
Proof.
  induction 1 as [|c cs r1 r2 r3 Hstep _ IH]; [done|].
  intros Hinv. apply IH. by apply (step_only_conns c r1).
Qed.

Lemma reachable_only_conns r : reachable r → only_conns (cache r).
Proof.
  intros [cs Hsteps]. apply (steps_only_conns cs NewWSRelay); [done|].
  intros key it Hit. simpl in Hit. by rewrite lookup_empty in Hit.
Qed.

Lemma step_absent c r r' token :
  step c r r' → (∀ now, c ≠ CallRegisterToken now token) →
  cache_Get token (cache r) = None → cache_Get token (cache r') = None.
Proof.
  intros Hstep Hc Hnone. unfold cache_Get in *.
  destruct (step_cache_lookup c r r' token Hstep)
    as [H|[H|(conn & it' & H & _ & [Hsome|[now Hnow]])]].
  - by rewrite H.
  - by rewrite H.
  - destruct Hsome as [it Hit]. by rewrite Hit in Hnone.
  - by destruct (Hc now).
Qed.

Lemma steps_absent cs r r' token :
  steps cs r r' → (∀ now, CallRegisterToken now token ∉ cs) →
  cache_Get token (cache r) = None → cache_Get token (cache r') = None.
Proof.
  induction 1 as [|c cs r1 r2 r3 Hstep _ IH]; [done|].
  intros Hcs Hnone. apply IH.
  - intros now Hin. apply (Hcs now). by right.
  - apply (step_absent c r1); [done| |done].
    intros now ->. apply (Hcs now). by left.
Qed.

Lemma bound_relay_reachable : reachable bound_relay.
Proof.
  exists [CallRegisterToken 0 "t1"; CallRegisterSession "t1" (Some 7%positive)].
  eapply steps_cons; [apply step_RegisterToken|].
  eapply steps_cons; [apply step_RegisterSession|].
  apply steps_nil.
Qed.

(** C8. In every state that a relay made by [NewWSRelay] reaches through its
    methods and the sweep, every value in the table is a connection record.
    So the type assertion succeeds wherever the code makes it: on the value
    [RegisterSession] and [SendData] get from the table, and on every entry
    the sweep hands to the expiration callback; [RegisterSession] never
    returns "failed to convert cached value to connection". *)
Theorem type_assertions_succeed r :
  reachable r →
  (∀ key it, items (cache r) !! key = Some it → ∃ conn, data it = Conn conn)
  ∧ (∀ token v, cache_Get token (cache r) = Some v →
       ∃ conn, type_assert v = Some conn)
  ∧ (∀ token s, (RegisterSession token s r).1 ≠ Some ErrConversion)
  ∧ (∀ kv, kv ∈ map_to_list (items (cache r)) →
       ∃ conn, type_assert (data kv.2) = Some conn).
Proof.
  intros Hreach. pose proof (reachable_only_conns r Hreach) as Hinv.
  assert (Hconn : ∀ key it, items (cache r) !! key = Some it →
                            ∃ conn, data it = Conn conn).
  { intros key it Hit. destruct (Hinv key it Hit) as [conn Hc].
    exists conn. by destruct (data it); inversion Hc. }
  assert (Hget : ∀ token v, cache_Get token (cache r) = Some v →
                            ∃ conn, type_assert v = Some conn).
  { intros token v. unfold cache_Get.
    destruct (items (cache r) !! token) as [it|] eqn:Hit; [|done].
    simpl. intros [= <-]. destruct (Hconn token it Hit) as [conn ->].
    by exists conn. }
  split_and!; [done|done| |].
  - intros token s. unfold RegisterSession.
    destruct (cache_Get token (cache r)) as [v|] eqn:Hv; [|done].
    destruct (Hget token v Hv) as [conn ->]. done.
  - intros [key it] Hin. apply elem_of_map_to_list in Hin.
    destruct (Hconn key it Hin) as [conn Hc]. exists conn. simpl. by rewrite Hc.
Qed.

Lemma type_assertions_succeed_witness :
  (∀ key it, items (cache bound_relay) !! key = Some it →
             ∃ conn, data it = Conn conn)
  ∧ (∀ token v, cache_Get token (cache bound_relay) = Some v →
       ∃ conn, type_assert v = Some conn)
  ∧ (∀ token s, (RegisterSession token s bound_relay).1 ≠ Some ErrConversion)
  ∧ (∀ kv, kv ∈ map_to_list (items (cache bound_relay)) →
       ∃ conn, type_assert (data kv.2) = Some conn).
Proof.
  apply (type_assertions_succeed bound_relay).
  exists [CallRegisterToken 0 "t1"; CallRegisterSession "t1" (Some 7%positive)].
  eapply steps_cons; [apply step_RegisterToken|].
  eapply steps_cons; [apply step_RegisterSession|].
  apply steps_nil.
Defined.

(** C4, the claim as stated fails: a token is issued and then disposed of
    twice; one token left the table, and the "removed" counter went up by
    two. *)
Lemma DisposeToken_twice_counts_twice :
  ¬ removed_once_per_token
      (RegisterToken 0 "t1" NewWSRelay)
      (DisposeToken "t1" (DisposeToken "t1" (RegisterToken 0 "t1" NewWSRelay))).
Proof. unfold removed_once_per_token. vm_compute. discriminate. Qed.

(** C4, amended.  After [DisposeToken token], for as long as the token is not
    registered again, every [SendData] and every [RegisterSession] for it
    returns "token not found" and changes nothing.  On the table,
    [DisposeToken] is idempotent: it leaves the other tokens alone, a second
    call changes nothing, and a call for a token that is not in the table
    changes nothing.  Every call adds exactly 1 to [tokenRemovedCounter],
    whether the token was in the table or not. *)
Theorem DisposeToken_forgets_token token r cs r' :
  steps cs (DisposeToken token r) r' →
  (∀ now, CallRegisterToken now token ∉ cs) →
  (∀ (R T : Type) `(!Reader R) `(!Transport T) fuel (body : R) (tr : T),
     SendData fuel token body tr r'
     = (Returned (Some ErrTokenNotFound), start_state body tr r'))
  ∧ (∀ s, RegisterSession token s r' = (Some ErrTokenNotFound, r'))
  ∧ (∀ other, other ≠ token →
       cache_Get other (cache (DisposeToken token r)) = cache_Get other (cache r))
  ∧ cache (DisposeToken token (DisposeToken token r))
    = cache (DisposeToken token r)
  ∧ (cache_Get token (cache r) = None → cache (DisposeToken token r) = cache r)
  ∧ tokenRemovedCounter (DisposeToken token r) = tokenRemovedCounter r + 1
  ∧ tokenRemovedCounter (DisposeToken token (DisposeToken token r))
    = tokenRemovedCounter r + 2.
Proof.
  intros Hsteps Hcs.
  assert (Hgone : cache_Get token (cache (DisposeToken token r)) = None).
  { unfold DisposeToken. simpl. rewrite cache_Get_Remove. by rewrite decide_True. }
  pose proof (steps_absent _ _ _ token Hsteps Hcs Hgone) as Habsent.
  split_and!.
  - intros R T ? ? fuel body tr. by apply SendData_not_found.
  - intros s. unfold RegisterSession. by rewrite Habsent.
  - intros other Hne. unfold DisposeToken. simpl.
    rewrite cache_Get_Remove. by rewrite decide_False.
  - unfold DisposeToken at 1. simpl. by apply cache_Remove_absent.
  - intros Hnone. unfold DisposeToken. simpl. by apply cache_Remove_absent.
  - simpl. lia.
  - simpl. lia.
Qed.

Lemma DisposeToken_forgets_token_witness :
  SendData 3 "t1" {| unread := hello |} open_wire
    (expiry_sweep open_wire 5 (RegisterToken 1 "t2" (DisposeToken "t1" bound_relay)))
  = (Returned (Some ErrTokenNotFound),
     start_state {| unread := hello |} open_wire
       (expiry_sweep open_wire 5
          (RegisterToken 1 "t2" (DisposeToken "t1" bound_relay)))).
Proof.
  apply (DisposeToken_forgets_token "t1" bound_relay
           [CallRegisterToken 1 "t2"; CallSweep 5]
           (expiry_sweep open_wire 5
              (RegisterToken 1 "t2" (DisposeToken "t1" bound_relay)))).
  - eapply steps_cons; [apply step_RegisterToken|].
    eapply steps_cons; [apply (step_Sweep open_wire)|].
    apply steps_nil.
  - intros now Hin. vm_compute in Hin.
    repeat (apply elem_of_cons in Hin as [Hin|Hin]; [discriminate|]).
    by apply elem_of_nil in Hin.
Defined.

(** In a reachable state a value got from the table is a connection record. *)
Lemma cached_value_is_conn r :
  reachable r →
  ∀ token v, cache_Get token (cache r) = Some v → ∃ conn, v = Conn conn.
Proof.
  intros Hreach token v. unfold cache_Get.
  destruct (items (cache r) !! token) as [it|] eqn:Hit; [|done].
  simpl. intros [= <-].
  destruct (reachable_only_conns r Hreach token it Hit) as [conn Hc].
  exists conn. by destruct (data it); inversion Hc.
Qed.

(** A call that returns nil wrote to the bound session what it read. *)
Lemma SendData_delivers_loop {R T : Type} `{!Reader R} `{!Transport T}
    fuel token (body : R) (tr : T) r st' :
  SendData fuel token body tr r = (Returned None, st') →
  ∃ s,
    bound_session token (cache r) = Some (Some s)
    ∧ Forall (λ s', s' = s) (write_targets (ls_trace st'))
    ∧ frames_of s (ls_trace st') = filter nonempty (reads_of (ls_trace st')).
Proof.
  intros Hrun.
  destruct (SendData_success_bound _ _ _ _ _ _ Hrun) as [s Hs].
  exists s. split; [done|].
  rewrite (SendData_bound _ _ _ _ _ s Hs) in Hrun.
  apply send_loop_effect in Hrun as (delta & (Htr & Htg & _ & _) & _ & Hok).
  cbn [start_state ls_trace app] in Htr. rewrite Htr.
  split; [done|by apply Hok].
Qed.

(** C7. For every token that is in the table of a relay in a reachable
    state, [RegisterSession] returns nil and stores the given session in the
    token's record, leaving the other tokens alone, whether or not a session
    was bound before: a second [RegisterSession] succeeds as well and
    replaces the session of the first.  A [SendData] that then returns nil
    made all its writes to the session bound last, and wrote there the
    non-empty chunks it read, in order. *)
Theorem RegisterSession_overwrites r token s :
  reachable r →
  is_Some (cache_Get token (cache r)) →
  (RegisterSession token (Some s) r).1 = None
  ∧ bound_session token (cache (RegisterSession token (Some s) r).2)
    = Some (Some s)
  ∧ (∀ other, other ≠ token →
       cache_Get other (cache (RegisterSession token (Some s) r).2)
       = cache_Get other (cache r))
  ∧ (∀ s2,
       (RegisterSession token (Some s2) (RegisterSession token (Some s) r).2).1
       = None
       ∧ bound_session token
           (cache (RegisterSession token (Some s2)
                     (RegisterSession token (Some s) r).2).2)
         = Some (Some s2))
  ∧ (∀ (R T : Type) `(!Reader R) `(!Transport T) fuel (body : R) (tr : T) st',
       SendData fuel token body tr (RegisterSession token (Some s) r).2
       = (Returned None, st') →
       Forall (λ s', s' = s) (write_targets (ls_trace st'))
       ∧ frames_of s (ls_trace st') = filter nonempty (reads_of (ls_trace st'))).
Proof.
  intros Hreach [v Hv].
  destruct (cached_value_is_conn r Hreach token v Hv) as [conn ->].
  destruct (RegisterSession_bound token (Some s) r conn Hv)
    as (Hnil & Hget1 & Hb & Hother & _).
  split_and!; try done.
  - intros s2.
    destruct (RegisterSession_bound token (Some s2) _ _ Hget1)
      as (Hnil2 & _ & Hb2 & _). done.
  - intros R T ? ? fuel body tr st' Hrun.
    destruct (SendData_delivers_loop _ _ _ _ _ _ Hrun)
      as (s' & Hs' & Htg & Hfr).
    assert (s' = s) as -> by congruence. done.
Qed.

Lemma RegisterSession_overwrites_witness :
  (RegisterSession "t1" (Some 9%positive) bound_relay).1 = None
  ∧ bound_session "t1" (cache (RegisterSession "t1" (Some 9%positive) bound_relay).2)
    = Some (Some 9%positive).
Proof.
  destruct (RegisterSession_overwrites bound_relay "t1" 9%positive)
    as (Hnil & Hb & _).
  - exists [CallRegisterToken 0 "t1"; CallRegisterSession "t1" (Some 7%positive)].
    eapply steps_cons; [apply step_RegisterToken|].
    eapply steps_cons; [apply step_RegisterSession|].
    apply steps_nil.
  - vm_compute. eexists. reflexivity.
  - split; [exact Hnil|exact Hb].
Defined.

(** C9, the code at the failing input.  The body's first [Read] returns the
    five bytes "hello" together with an error that is not [io.EOF].  The
    chunk is written and recorded; the assignment of the result of [Write]
    to [err] then replaces the read error by nil, the loop reads again, gets
    [io.EOF], and [SendData] returns nil: the read error never reaches the
    caller. *)
Theorem SendData_swallows_read_error :
  (SendData 3 "t1" {| script := [(hello, Some (ErrExternal "boom"))] |}
     open_wire bound_relay).1
  = Returned None
  ∧ ls_trace (SendData 3 "t1" {| script := [(hello, Some (ErrExternal "boom"))] |}
                open_wire bound_relay).2
    = [EvRead hello (Some (ErrExternal "boom"));
       EvWrite 7%positive hello None;
       EvRead [] (Some EOF)]
  ∧ messageSizeHistogram
      (ls_relay (SendData 3 "t1"
                   {| script := [(hello, Some (ErrExternal "boom"))] |}
                   open_wire bound_relay).2)
    = [5].
Proof. vm_compute. done. Qed.

(** C10. After any [SendData], however it ends (nil, "token not found", "no
    session associated with this token", an error of the reader or of the
    transport, a panic, or still running), the table holds the same tokens
    as before, and every token has the same record, with the same session,
    as before. *)
Theorem SendData_leaves_table {R T : Type} `{!Reader R} `{!Transport T}
    fuel token (body : R) (tr : T) r :
  dom (items (cache (ls_relay (SendData fuel token body tr r).2)))
  = dom (items (cache r))
  ∧ (∀ other,
       cache_Get other (cache (ls_relay (SendData fuel token body tr r).2))
       = cache_Get other (cache r))
  ∧ (∀ other,
       bound_session other (cache (ls_relay (SendData fuel token body tr r).2))
       = bound_session other (cache r)).
Proof.
  destruct (SendData_cache fuel token body tr r) as [-> _]. done.
Qed.


(** ** Finite bodies *)

Section Finite.
Context {R T : Type} `{!Reader R} `{!Transport T}.

End Finite.



(** ** The shape of the trace of a send *)

Section Shape.
Context {R T : Type} `{!Reader R} `{!Transport T}.

Lemma send_loop_shape fuel token s (st : loop_state R T) o st' :
  send_loop fuel token s st = (o, st') →
  ∃ body tail,
    ls_trace st' = ls_trace st ++ body ++ tail
    ∧ rounds s (length (ls_buf st)) body
    ∧ ending s (length (ls_buf st)) o tail.
Proof.
  revert st. induction fuel as [|fuel IH]; intros st Hrun.
  { inversion Hrun; subst. exists [], []. simpl. rewrite app_nil_r.
    split_and!; [done|constructor|constructor]. }
  rewrite send_loop_S in Hrun. unfold iteration in Hrun.
  destruct (Read (ls_body st) (length (ls_buf st))) as [[chunk err] body1].
  destruct (length (ls_buf st) <? length chunk) eqn:Hfit.
  { apply Nat.ltb_lt in Hfit. inversion Hrun; subst.
    exists [], [EvRead chunk err]. split_and!; [done|constructor|by constructor]. }
  apply Nat.ltb_ge in Hfit.
  destruct (0 <? length chunk) eqn:Hpos.
  - apply Nat.ltb_lt in Hpos.
    cbn [ls_buf ls_transport ls_body ls_relay ls_trace] in Hrun.
    rewrite frame_is_chunk in Hrun.
    destruct (Write (ls_transport st) s chunk) as [[e|] tr1].
    + inversion Hrun; subst.
      exists [], [EvRead chunk err; EvWrite s chunk (Some e)].
      split_and!; [by rewrite <- app_assoc|constructor|by constructor].
    + cbn [check_err ls_buf ls_transport ls_body ls_relay ls_trace] in Hrun.
      apply IH in Hrun as (body & tail & Htr & Hbody & Htail).
      cbn [ls_buf ls_trace] in Htr, Hbody, Htail.
      rewrite buf_length_kept in Hbody, Htail by done.
      exists (EvRead chunk err :: EvWrite s chunk None :: body), tail.
      split_and!; [|by constructor|done].
      rewrite Htr, <- !app_assoc. done.
  - apply Nat.ltb_ge in Hpos.
    assert (chunk = []) as -> by (destruct chunk; [done|simpl in Hpos; lia]).
    cbn [length drop app] in Hrun.
    destruct err as [e|]; cbn [check_err] in Hrun.
    + assert (Hend : ls_trace st' = ls_trace st ++ [EvRead [] (Some e)]
                     ∧ ending s (length (ls_buf st)) o [EvRead [] (Some e)]).
      { destruct e; inversion Hrun; subst; split; try done; by constructor. }
      destruct Hend as [Htr Hend].
      exists [], [EvRead [] (Some e)]. split_and!; [done|constructor|done].
    + apply IH in Hrun as (body & tail & Htr & Hbody & Htail).
      cbn [ls_buf ls_trace] in Htr, Hbody, Htail.
      exists (EvRead [] None :: body), tail.
      split_and!; [|by constructor|done].
      rewrite Htr, <- !app_assoc. done.
Qed.

(** A reader that keeps the contract never makes an iteration panic. *)
Lemma send_loop_no_panic fuel token s (st : loop_state R T) :
  reader_fits R → (send_loop fuel token s st).1 ≠ Panicked.
Proof.
  intros Hfits. revert st. induction fuel as [|fuel IH]; intros st; [done|].
  rewrite send_loop_S. unfold iteration.
  pose proof (Hfits (ls_body st) (length (ls_buf st))) as Hlen.
  destruct (Read (ls_body st) (length (ls_buf st))) as [[chunk err] body1].
  simpl in Hlen.
  destruct (length (ls_buf st) <? length chunk) eqn:Hfit.
  { apply Nat.ltb_lt in Hfit. lia. }
  destruct (0 <? length chunk).
  - cbn [ls_buf ls_transport ls_body ls_relay ls_trace].
    destruct (Write _ s _) as [[e|] tr1]; [done|]. apply IH.
  - destruct err as [[]|]; try done. apply IH.
Qed.
End Shape.



(** X1. The events of a [SendData] for a token bound to session [s] are a
    run of iterations that go on (a read of no bytes without error, or a read
    of 1 to 4096 bytes followed by its successful write to [s]) and then the
    iteration that decides the outcome: nil only after a read of no bytes
    with [io.EOF]; an error only after a read of no bytes with another
    error, or after a failed write, whose error it is; a panic only after a
    read that reports more than 4096 bytes.  Nothing follows that iteration:
    a failed write is the last event of the call. *)
Theorem SendData_trace_shape {R T : Type} `{!Reader R} `{!Transport T}
    fuel token (body : R) (tr : T) r s :
  bound_session token (cache r) = Some (Some s) →
  ∃ iterations tail,
    ls_trace (SendData fuel token body tr r).2 = iterations ++ tail
    ∧ rounds s 4096 iterations
    ∧ ending s 4096 (SendData fuel token body tr r).1 tail.
Proof.
  intros Hb. rewrite (SendData_bound _ _ _ _ _ s Hb).
  destruct (send_loop fuel token s (start_state body tr r)) as [o st'] eqn:Hrun.
  apply send_loop_shape in Hrun as (iterations & tail & Htr & Hbody & Htail).
  cbn [start_state ls_trace ls_buf app] in Htr, Hbody, Htail.
  rewrite make_buf_length in Hbody, Htail.
  by exists iterations, tail.
Qed.

Lemma SendData_trace_shape_witness :
  ∃ iterations tail,
    ls_trace (SendData 5 "t1" {| script := [(hello, None)] |}
                {| closed := [7%positive]; delivered := [] |} bound_relay).2
    = iterations ++ tail
    ∧ rounds 7%positive 4096 iterations
    ∧ ending 7%positive 4096
        (SendData 5 "t1" {| script := [(hello, None)] |}
           {| closed := [7%positive]; delivered := [] |} bound_relay).1 tail.
Proof.
  apply (SendData_trace_shape 5 "t1" {| script := [(hello, None)] |}
           {| closed := [7%positive]; delivered := [] |} bound_relay 7%positive).
  vm_compute. reflexivity.
Defined.



(** X3. A body reader that keeps the contract of [io.Reader], never
    reporting more bytes than the buffer it was given holds, cannot make
    [SendData] panic, for any token, transport and relay state. *)
Theorem SendData_no_panic {R T : Type} `{!Reader R} `{!Transport T}
    fuel token (body : R) (tr : T) r :
  reader_fits R →
  (SendData fuel token body tr r).1 ≠ Panicked.
Proof.
  intros Hfits. unfold SendData.
  destruct (cache_Get token (cache r)) as [v|]; [|done].
  destruct (type_assert v) as [[[s|]]|]; try done.
  by apply send_loop_no_panic.
Qed.

Lemma SendData_no_panic_witness :
  (SendData 4 "t1" {| unread := hello |} open_wire bound_relay).1 ≠ Panicked.
Proof.
  apply (SendData_no_panic 4 "t1" {| unread := hello |} open_wire bound_relay).
  intros st len. unfold Read, bytesReader_Read.
  destruct (unread st); simpl; [lia|].
  destruct len; simpl; [lia|]. rewrite length_take. lia.
Defined.

Lemma iteration_empty_error {R T : Type} `{!Reader R} `{!Transport T}
    token s (st : loop_state R T) e body1 :
  Read (ls_body st) (length (ls_buf st)) = ([], Some e, body1) →
  iteration token s st
  = check_err (Some e)
      {| ls_body := body1;
         ls_buf := ls_buf st;
         ls_transport := ls_transport st;
         ls_relay := ls_relay st;
         ls_trace := ls_trace st ++ [EvRead [] (Some e)] |}.
Proof.
  intros Hread. unfold iteration. rewrite Hread. simpl.
  destruct (length (ls_buf st) <? 0) eqn:Hfit; [|done].
  apply Nat.ltb_lt in Hfit. lia.
Qed.

(** X4. When the first [Read] of the body returns no bytes and an error, a
    [SendData] for a bound token ends there: it returns nil if the error is
    [io.EOF] (an empty body is a successful send) and the error itself
    otherwise; nothing is written to the session and the relay, with all its
    metrics, is unchanged. *)
Theorem SendData_first_read_empty {R T : Type} `{!Reader R} `{!Transport T}
    fuel token (body body1 : R) (tr : T) r s e :
  bound_session token (cache r) = Some (Some s) →
  Read body 4096 = ([], Some e, body1) →
  (SendData (S fuel) token body tr r).1
  = Returned (match e with EOF => None | _ => Some e end)
  ∧ ls_trace (SendData (S fuel) token body tr r).2 = [EvRead [] (Some e)]
  ∧ ls_relay (SendData (S fuel) token body tr r).2 = r
  ∧ ls_transport (SendData (S fuel) token body tr r).2 = tr.
Proof.
  intros Hb Hread. rewrite (SendData_bound _ _ _ _ _ s Hb), send_loop_S.
  rewrite (iteration_empty_error token s _ e body1).
  2: { cbn [start_state ls_body ls_buf]. by rewrite make_buf_length. }
  by destruct e.
Qed.

Lemma SendData_first_read_empty_witness :
  (SendData 1 "t1" {| unread := [] |} open_wire bound_relay).1 = Returned None
  ∧ ls_trace (SendData 1 "t1" {| unread := [] |} open_wire bound_relay).2
    = [EvRead [] (Some EOF)]
  ∧ ls_relay (SendData 1 "t1" {| unread := [] |} open_wire bound_relay).2
    = bound_relay
  ∧ ls_transport (SendData 1 "t1" {| unread := [] |} open_wire bound_relay).2
    = open_wire.
Proof.
  apply (SendData_first_read_empty 0 "t1" {| unread := [] |} {| unread := [] |}
           open_wire bound_relay 7%positive EOF).
  - vm_compute. reflexivity.
  - reflexivity.
Defined.

(** ** Invariants of the metrics *)

Lemma counter_total_Add label n v :
  counter_total (counter_Add label n v) = counter_total v + n.
Proof.
  unfold counter_total, counter_Add, counter_value.
  assert (Hcomm : ∀ (m : gmap string nat) (j1 j2 : string) (z1 z2 y : nat),
             j1 ≠ j2 → m !! j1 = Some z1 → m !! j2 = Some z2 →
             z1 + (z2 + y) = z2 + (z1 + y)) by (intros; lia).
  destruct (v !! label) as [x|] eqn:Hx; simpl.
  - rewrite <- (insert_delete_eq v label (x + n)).
    rewrite map_fold_insert_L; [|by apply Hcomm|by apply lookup_delete_eq].
    rewrite (map_fold_delete_L _ _ label x v); [lia|by apply Hcomm|done].
  - rewrite map_fold_insert_L; [lia|by apply Hcomm|done].
Qed.

Lemma sum_list_snoc l n : sum_list (l ++ [n]) = sum_list l + n.
Proof. induction l as [|x l IH]; simpl; lia. Qed.

Lemma record_chunk_consistent token n r :
  1 ≤ n ≤ 4096 → metrics_consistent r →
  metrics_consistent (record_chunk token n r).
Proof.
  intros Hn (Hh & Hlen & Hsum & Hlab & Hsize).
  unfold metrics_consistent. simpl. split_and!.
  - apply Forall_app. split; [done|]. by constructor.
  - rewrite length_app, counter_total_Add, Hlen. done.
  - rewrite sum_list_snoc, counter_total_Add, Hsum. done.
  - intros label. rewrite !counter_value_Add.
    destruct (Hlab label). case_decide; lia.
  - done.
Qed.

Lemma record_frames_consistent token frames r :
  Forall (λ frame, 0 < length frame ≤ 4096) frames →
  metrics_consistent r → metrics_consistent (record_frames token frames r).
Proof.
  induction frames as [|frame frames IH] using rev_ind; [done|].
  intros Hall Hr. apply Forall_app in Hall as [Hall Hframe].
  rewrite Forall_singleton in Hframe.
  rewrite record_frames_snoc. apply record_chunk_consistent; [lia|by apply IH].
Qed.

(** The relay after a send is the relay before, charged for the frames of
    the send. *)
Lemma SendData_relay_frames {R T : Type} `{!Reader R} `{!Transport T}
    fuel token (body : R) (tr : T) r :
  ∃ frames,
    Forall (λ frame, 0 < length frame ≤ 4096) frames
    ∧ ls_relay (SendData fuel token body tr r).2 = record_frames token frames r.
Proof.
  destruct (bound_session token (cache r)) as [[s|]|] eqn:Hb.
  - rewrite (SendData_bound _ _ _ _ _ s Hb).
    destruct (send_loop fuel token s (start_state body tr r)) as [o st'] eqn:Hrun.
    apply send_loop_effect in Hrun as (delta & (_ & _ & Hrel & Hfr) & _).
    cbn [start_state ls_buf ls_relay] in Hrel, Hfr.
    rewrite make_buf_length in Hfr. by exists (frames_of s delta).
  - exists []. split; [done|].
    destruct (cache_Get token (cache r)) as [v|] eqn:Hget.
    + rewrite SendData_unbound; [done|by rewrite Hget|]. by rewrite Hb.
    + by rewrite SendData_not_found.
  - exists []. split; [done|].
    destruct (cache_Get token (cache r)) as [v|] eqn:Hget.
    + rewrite SendData_unbound; [done|by rewrite Hget|]. by rewrite Hb.
    + by rewrite SendData_not_found.
Qed.

Lemma sweep_over_size {T : Type} `{!Transport T} (tr : T) now l r :
  size (items (cache (sweep_over tr now l r))) ≤ size (items (cache r)).
Proof.
  induction l as [|kv l IH]; [done|].
  rewrite sweep_over_cons. destruct (evicted tr now kv); [|done].
  simpl. rewrite map_size_delete.
  destruct (items (cache (sweep_over tr now l r)) !! kv.1); simpl; lia.
Qed.

Lemma step_metrics_consistent c r r' :
  step c r r' → metrics_consistent r → metrics_consistent r'.
Proof.
  intros Hstep Hr. destruct Hstep.
  - destruct Hr as (Hh & Hlen & Hsum & Hlab & Hsize).
    unfold metrics_consistent. simpl. split_and!; try done.
    rewrite map_size_insert. destruct (items (cache r) !! token); simpl; lia.
  - unfold RegisterSession.
    destruct (cache_Get token (cache r)) as [v|]; [|done].
    destruct (type_assert v) as [conn|]; [|done].
    destruct Hr as (Hh & Hlen & Hsum & Hlab & Hsize).
    unfold metrics_consistent. simpl. split_and!; try done.
    rewrite alter_alt. destruct (items (cache r) !! token) eqn:Hit; [|done].
    rewrite map_size_insert, Hit. done.
  - destruct (SendData_relay_frames fuel token body tr r) as (frames & Hfr & ->).
    by apply record_frames_consistent.
  - destruct Hr as (Hh & Hlen & Hsum & Hlab & Hsize).
    unfold metrics_consistent. simpl. split_and!; try done.
    rewrite map_size_delete. destruct (items (cache r) !! token); simpl; lia.
  - destruct Hr as (Hh & Hlen & Hsum & Hlab & Hsize).
    rewrite expiry_sweep_over.
    pose proof (sweep_over_counters tr now (map_to_list (items (cache r))) r)
      as (_ & Hc & Hhist & Hbytes & Hmsgs).
    pose proof (sweep_over_size tr now (map_to_list (items (cache r))) r).
    unfold metrics_consistent. rewrite Hc, Hhist, Hbytes, Hmsgs.
    split_and!; try done. lia.
Qed.

Lemma steps_metrics_consistent cs r r' :
  steps cs r r' → metrics_consistent r → metrics_consistent r'.
Proof.
  induction 1 as [|c cs r1 r2 r3 Hstep _ IH]; [done|].
  intros Hr. apply IH. by apply (step_metrics_consistent c r1).
Qed.

Lemma reachable_metrics_consistent r : reachable r → metrics_consistent r.
Proof.
  intros [cs Hsteps]. apply (steps_metrics_consistent cs NewWSRelay); [done|].
  unfold metrics_consistent, counter_total, counter_value. simpl.
  rewrite !map_fold_empty, map_size_empty. split_and!; try done.
  all: intros label; rewrite lookup_empty; simpl; lia.
Qed.

(** X5. In every state a relay reaches, its metrics agree with each other:
    every observation of the message-size histogram is between 1 and 4096;
    the histogram has as many observations as the per-token message counters
    add up to, and its observations add up to what the per-token byte
    counters add up to; and for every token the byte counter is at least the
    message counter and at most 4096 times it. *)
Theorem reachable_metrics_agree r :
  reachable r →
  Forall (λ n, 1 ≤ n ≤ 4096) (messageSizeHistogram r)
  ∧ length (messageSizeHistogram r) = counter_total (tokenMessagesCounter r)
  ∧ sum_list (messageSizeHistogram r) = counter_total (tokenBytesCounter r)
  ∧ (∀ label,
       counter_value label (tokenMessagesCounter r)
       ≤ counter_value label (tokenBytesCounter r)
       ∧ counter_value label (tokenBytesCounter r)
         ≤ 4096 * counter_value label (tokenMessagesCounter r)).
Proof.
  intros Hreach.
  destruct (reachable_metrics_consistent r Hreach) as (H1 & H2 & H3 & H4 & _).
  done.
Qed.

Lemma reachable_metrics_agree_witness :
  Forall (λ n, 1 ≤ n ≤ 4096)
    (messageSizeHistogram
       (ls_relay (SendData 5 "t1" {| unread := hello |} open_wire bound_relay).2))
  ∧ length (messageSizeHistogram
       (ls_relay (SendData 5 "t1" {| unread := hello |} open_wire bound_relay).2))
    = counter_total (tokenMessagesCounter
       (ls_relay (SendData 5 "t1" {| unread := hello |} open_wire bound_relay).2)).
Proof.
  destruct (reachable_metrics_agree
              (ls_relay (SendData 5 "t1" {| unread := hello |} open_wire
                           bound_relay).2)) as (H1 & H2 & _).
  - exists [CallRegisterToken 0 "t1"; CallRegisterSession "t1" (Some 7%positive);
            CallSendData "t1"].
    eapply steps_cons; [apply step_RegisterToken|].
    eapply steps_cons; [apply step_RegisterSession|].
    eapply steps_cons; [apply (step_SendData 5 "t1" {| unread := hello |} open_wire)|].
    apply steps_nil.
  - split; [exact H1|exact H2].
Defined.

(** X6. In every state a relay reaches, the table holds at most as many
    tokens as [RegisterToken] was called: its size never exceeds the counter
    of tokens issued. *)
Theorem reachable_table_bounded r :
  reachable r → size (items (cache r)) ≤ tokenCounter r.
Proof.
  intros Hreach.
  by destruct (reachable_metrics_consistent r Hreach) as (_ & _ & _ & _ & H).
Qed.

Lemma reachable_table_bounded_witness :
  size (items (cache (RegisterToken 3 "t1" bound_relay)))
  ≤ tokenCounter (RegisterToken 3 "t1" bound_relay).
Proof.
  apply (reachable_table_bounded (RegisterToken 3 "t1" bound_relay)).
  exists [CallRegisterToken 0 "t1"; CallRegisterSession "t1" (Some 7%positive);
          CallRegisterToken 3 "t1"].
  eapply steps_cons; [apply step_RegisterToken|].
  eapply steps_cons; [apply step_RegisterSession|].
  eapply steps_cons; [apply step_RegisterToken|].
  apply steps_nil.
Defined.

(** X7. Issuing a token that is not in the table and then disposing of it
    gives back the table as it was; the counter of tokens issued and the
    counter of tokens removed have each gone up by one, and the send metrics
    are untouched. *)
Theorem RegisterToken_DisposeToken_roundtrip now token r :
  cache_Get token (cache r) = None →
  cache (DisposeToken token (RegisterToken now token r)) = cache r
  ∧ tokenCounter (DisposeToken token (RegisterToken now token r))
    = tokenCounter r + 1
  ∧ tokenRemovedCounter (DisposeToken token (RegisterToken now token r))
    = tokenRemovedCounter r + 1
  ∧ messageSizeHistogram (DisposeToken token (RegisterToken now token r))
    = messageSizeHistogram r
  ∧ tokenBytesCounter (DisposeToken token (RegisterToken now token r))
    = tokenBytesCounter r
  ∧ tokenMessagesCounter (DisposeToken token (RegisterToken now token r))
    = tokenMessagesCounter r.
Proof.
  intros Hnone. split_and!; try done; simpl; try lia.
  unfold cache_Remove, cache_Set, cache_Get in *. simpl.
  destruct (cache r) as [m t]. simpl in *. f_equal.
  apply delete_insert_id. by destruct (m !! token).
Qed.

Lemma RegisterToken_DisposeToken_roundtrip_witness :
  cache (DisposeToken "t2" (RegisterToken 4 "t2" bound_relay)) = cache bound_relay.
Proof.
  apply (RegisterToken_DisposeToken_roundtrip 4 "t2" bound_relay).
  reflexivity.
Defined.

(** ** The handlers of main.go *)





(** X10. A request with another method than the one a handler serves is
    answered with 405 "Invalid request method" and has no effect: the
    handler of [/session] issues no token and leaves the relay as it was,
    the handler of [/session/send/] reads nothing from the body, writes to no
    session and leaves the relay as it was, and the handler of
    [/session/receive/] does not reach the websocket upgrade. *)
Theorem handlers_reject_other_methods {R T : Type} `{!Reader R} `{!Transport T}
    fuel method path generated now (body : R) (tr : T) r handle :
  (method ≠ "POST" →
   sessionHandler method generated now r
   = ({| status := 405; sent := Text "Invalid request method" |}, r)
   ∧ sendHandler fuel method path body tr r
     = (Responded {| status := 405; sent := Text "Invalid request method" |},
        start_state body tr r))
  ∧ (method ≠ "GET" →
     receiveHandler method path handle
     = Responded {| status := 405; sent := Text "Invalid request method" |}).
Proof.
  split.
  - intros Hm. apply String.eqb_neq in Hm.
    unfold sessionHandler, sendHandler, MethodPost. by rewrite Hm.
  - intros Hm. apply String.eqb_neq in Hm.
    unfold receiveHandler, MethodGet. by rewrite Hm.
Qed.

Lemma handlers_reject_other_methods_witness :
  sessionHandler "GET" "t9" 0 bound_relay
  = ({| status := 405; sent := Text "Invalid request method" |}, bound_relay)
  ∧ receiveHandler "POST" "/session/receive/t1" (λ _, None)
    = Responded {| status := 405; sent := Text "Invalid request method" |}.
Proof.
  split.
  - apply (handlers_reject_other_methods 1 "GET" "/session" "t9" 0
             {| unread := hello |} open_wire bound_relay (λ _, None)).
    discriminate.
  - apply (handlers_reject_other_methods 1 "POST" "/session/receive/t1" "t9" 0
             {| unread := hello |} open_wire bound_relay (λ _, None)).
    discriminate.
Defined.

(** ** The websocket callbacks of main.go *)

Lemma HandleConnect_string_key {T : Type} `{!Closer T} token s (tr : T) r :
  HandleConnect (receive_keys token) s tr r
  = match RegisterSession token (Some s) r with
    | (Some _, r1) => Some (Close tr s, r1)
    | (None, r1) => Some (tr, r1)
    end.
Proof.
  unfold HandleConnect, receive_keys. by rewrite lookup_singleton_eq.
Qed.

Lemma HandleDisconnect_string_key token r :
  HandleDisconnect (receive_keys token) r = Some (DisposeToken token r).
Proof.
  unfold HandleDisconnect, receive_keys. by rewrite lookup_singleton_eq.
Qed.

(** X11. The connect callback, in any state a relay reaches.  A session
    without a "token" key is closed and the relay is left as it was.  A
    session whose token is not in the table (never issued, disposed of, or
    expired) is closed and the relay is left as it was: no session is bound
    for an unknown token.  A session whose token is in the table is bound to
    it and is not closed; the other tokens and all metrics are untouched. *)
Theorem HandleConnect_binds_or_closes {T : Type} `{!Closer T}
    keys token s (tr : T) r :
  reachable r →
  (keys !! "token" = None → HandleConnect keys s tr r = Some (Close tr s, r))
  ∧ (keys !! "token" = Some (KeyString token) →
     cache_Get token (cache r) = None →
     HandleConnect keys s tr r = Some (Close tr s, r))
  ∧ (keys !! "token" = Some (KeyString token) →
     is_Some (cache_Get token (cache r)) →
     ∃ r1,
       HandleConnect keys s tr r = Some (tr, r1)
       ∧ bound_session token (cache r1) = Some (Some s)
       ∧ (∀ other, other ≠ token →
            cache_Get other (cache r1) = cache_Get other (cache r))
       ∧ metrics r1 = metrics r).
Proof.
  intros Hreach. unfold HandleConnect. split_and!.
  - by intros ->.
  - intros -> Hnone. unfold RegisterSession. by rewrite Hnone.
  - intros -> [v Hv].
    destruct (cached_value_is_conn r Hreach token v Hv) as [conn ->].
    destruct (RegisterSession_bound token (Some s) r conn Hv)
      as (Hnil & _ & Hb & Hother & Hmet).
    destruct (RegisterSession token (Some s) r) as [e r1]. simpl in *. subst e.
    by exists r1.
Qed.

Lemma HandleConnect_binds_or_closes_witness :
  HandleConnect (receive_keys "nobody") 8%positive open_wire bound_relay
  = Some (Close open_wire 8%positive, bound_relay)
  ∧ ∃ r1,
      HandleConnect (receive_keys "t1") 8%positive open_wire bound_relay
      = Some (open_wire, r1)
      ∧ bound_session "t1" (cache r1) = Some (Some 8%positive).
Proof.
  assert (Hreach : reachable bound_relay).
  { exists [CallRegisterToken 0 "t1"; CallRegisterSession "t1" (Some 7%positive)].
    eapply steps_cons; [apply step_RegisterToken|].
    eapply steps_cons; [apply step_RegisterSession|].
    apply steps_nil. }
  split.
  - apply (HandleConnect_binds_or_closes (receive_keys "nobody") "nobody"
             8%positive open_wire bound_relay Hreach); reflexivity.
  - destruct (HandleConnect_binds_or_closes (receive_keys "t1") "t1"
                8%positive open_wire bound_relay Hreach) as (_ & _ & Hbind).
    destruct Hbind as (r1 & Hc & Hb & _).
    + reflexivity.
    + vm_compute. eexists. reflexivity.
    + exists r1. split; [exact Hc|exact Hb].
Defined.

(** X12. The disconnect callback disposes of the token of the session that
    went away, whichever session is bound to the token by then.  When a
    second session connects for a token and the first one then disconnects,
    the token is removed although the second session is bound to it: every
    later [SendData] for the token returns "token not found". *)
Theorem stale_disconnect_drops_rebound_token {T : Type} `{!Closer T}
    token s1 s2 (tr : T) r :
  reachable r →
  is_Some (cache_Get token (cache r)) →
  ∃ r1 r2 r3,
    HandleConnect (receive_keys token) s1 tr r = Some (tr, r1)
    ∧ HandleConnect (receive_keys token) s2 tr r1 = Some (tr, r2)
    ∧ bound_session token (cache r2) = Some (Some s2)
    ∧ HandleDisconnect (receive_keys token) r2 = Some r3
    ∧ cache_Get token (cache r3) = None
    ∧ (∀ (R T' : Type) `(!Reader R) `(!Transport T') fuel (body : R) (tr' : T'),
         SendData fuel token body tr' r3
         = (Returned (Some ErrTokenNotFound), start_state body tr' r3)).
Proof.
  intros Hreach [v Hv].
  destruct (cached_value_is_conn r Hreach token v Hv) as [conn ->].
  destruct (RegisterSession_bound token (Some s1) r conn Hv)
    as (Hnil1 & Hget1 & _).
  destruct (RegisterSession_bound token (Some s2) _ _ Hget1)
    as (Hnil2 & _ & Hb2 & _).
  exists (RegisterSession token (Some s1) r).2,
         (RegisterSession token (Some s2) (RegisterSession token (Some s1) r).2).2,
         (DisposeToken token
            (RegisterSession token (Some s2)
               (RegisterSession token (Some s1) r).2).2).
  assert (Hgone : cache_Get token
                    (cache (DisposeToken token
                       (RegisterSession token (Some s2)
                          (RegisterSession token (Some s1) r).2).2)) = None).
  { unfold DisposeToken. simpl. rewrite cache_Get_Remove. by rewrite decide_True. }
  split_and!.
  - rewrite HandleConnect_string_key.
    destruct (RegisterSession token (Some s1) r) as [e r1]. simpl in *. by subst e.
  - rewrite HandleConnect_string_key.
    destruct (RegisterSession token (Some s2) _) as [e r2]. simpl in *. by subst e.
  - done.
  - apply HandleDisconnect_string_key.
  - done.
  - intros R T' ? ? fuel body tr'. by apply SendData_not_found.
Qed.

Lemma stale_disconnect_drops_rebound_token_witness :
  ∃ r1 r2 r3,
    HandleConnect (receive_keys "t1") 8%positive open_wire bound_relay
    = Some (open_wire, r1)
    ∧ HandleConnect (receive_keys "t1") 9%positive open_wire r1
      = Some (open_wire, r2)
    ∧ bound_session "t1" (cache r2) = Some (Some 9%positive)
    ∧ HandleDisconnect (receive_keys "t1") r2 = Some r3
    ∧ cache_Get "t1" (cache r3) = None.
Proof.
  destruct (stale_disconnect_drops_rebound_token "t1" 8%positive 9%positive
              open_wire bound_relay)
    as (r1 & r2 & r3 & H1 & H2 & H3 & H4 & H5 & _).
  - exists [CallRegisterToken 0 "t1"; CallRegisterSession "t1" (Some 7%positive)].
    eapply steps_cons; [apply step_RegisterToken|].
    eapply steps_cons; [apply step_RegisterSession|].
    apply steps_nil.
  - vm_compute. eexists. reflexivity.
  - exists r1, r2, r3. split_and!; assumption.
Defined.




(** X15. A [SendData] for one token, however it ends, changes the byte and
    message counters of no other token, and it changes neither the counter
    of tokens issued nor the counter of tokens removed. *)
Theorem SendData_charges_only_its_token {R T : Type} `{!Reader R} `{!Transport T}
    fuel token (body : R) (tr : T) r other :
  other ≠ token →
  counter_value other
    (tokenBytesCounter (ls_relay (SendData fuel token body tr r).2))
  = counter_value other (tokenBytesCounter r)
  ∧ counter_value other
      (tokenMessagesCounter (ls_relay (SendData fuel token body tr r).2))
    = counter_value other (tokenMessagesCounter r)
  ∧ tokenCounter (ls_relay (SendData fuel token body tr r).2) = tokenCounter r
  ∧ tokenRemovedCounter (ls_relay (SendData fuel token body tr r).2)
    = tokenRemovedCounter r.
Proof.
  intros Hne.
  destruct (SendData_relay_frames fuel token body tr r) as (frames & _ & ->).
  destruct (record_frames_cache token frames r) as (_ & Hc & Hr).
  rewrite record_frames_bytes, record_frames_messages.
  rewrite !decide_False by done. split_and!; [lia|lia|done|done].
Qed.

Lemma SendData_charges_only_its_token_witness :
  counter_value "t2"
    (tokenBytesCounter
       (ls_relay (SendData 3 "t1" {| unread := hello |} open_wire
                    two_token_relay).2))
  = counter_value "t2" (tokenBytesCounter two_token_relay).
Proof.
  apply (SendData_charges_only_its_token 3 "t1" {| unread := hello |} open_wire
           two_token_relay "t2").
  discriminate.
Defined.
